(** * Ubuntu UI toolkit: argument parser, bottom edge range, theme broadcast

    A shallow embedding of three plugin sources

    - [Ubuntu/Components/plugin/ucbottomedgerange.cpp]
    - [Ubuntu/Components/plugin/ucarguments.cpp]
    - [Ubuntu/Components/plugin/ucitemextension.cpp]

    and the properties of them that the specification states.  Every
    definition follows the C++ member function of the same name; Qt
    objects become records, pointers become [option], signals, debug
    output and calls into objects defined elsewhere are appended to explicit
    logs. *)

From Stdlib Require Import Floats ZArith String Ascii List Bool Lia.
From stdpp Require Import gmap strings list.

Local Open Scope string_scope.

(** ** Qt value types *)

(** [qreal] is an IEEE-754 double; comparisons are the hardware ones, so a
    NaN compares false with everything and [0.0 == -0.0]. *)
Definition qreal : Set := float.

Definition qLe (x y : qreal) : bool := PrimFloat.leb x y.
Definition qGe (x y : qreal) : bool := PrimFloat.leb y x.
Definition qLt (x y : qreal) : bool := PrimFloat.ltb x y.
Definition qEq (x y : qreal) : bool := PrimFloat.eqb x y.

(** A [QUrl] is either invalid (the default-constructed one) or carries its
    text. *)
Inductive QUrl : Set :=
| InvalidUrl
| Url (text : string).

Definition isValid (u : QUrl) : bool :=
  match u with InvalidUrl => false | Url _ => true end.

(** Objects owned by the QML engine are known by their address only. *)
Definition QQmlComponent : Set := nat.
Definition QQmlAbstractBinding : Set := nat.

Inductive QVariant : Set :=
| VariantInvalid
| VariantUrl (u : QUrl)
| VariantComponent (c : option QQmlComponent).

(** What a QML property holds: a plain value, or a binding that computes
    it. *)
Inductive PropertyState : Set :=
| HoldsValue (v : QVariant)
| HoldsBinding (b : QQmlAbstractBinding).

Module BottomEdge.

(** ** The owning BottomEdge, as far as the range touches it *)

Inductive BottomEdgeCall : Set :=
| Commit
| PositionPanel (position : qreal).

(** Modelled from the spec: the class [UCBottomEdge] (ucbottomedge.h) is
    missing.  The range reads its [commitPoint], overrides its [content] and
    [contentComponent] properties, and on drag end "commits to top or
    repositions panel"; [calls] lists these two requests in the order they
    were made. *)
Record UCBottomEdge : Set := mkBottomEdge {
  commitPoint : qreal;
  content : PropertyState;
  contentComponent : PropertyState;
  calls : list BottomEdgeCall
}.

(** Modelled from the spec: [UCBottomEdge::commit] (ucbottomedge.cpp) is
    missing; the call is recorded in [calls]. *)
Definition commit (be : UCBottomEdge) : UCBottomEdge :=
  mkBottomEdge (commitPoint be) (content be) (contentComponent be)
               (calls be ++ [Commit]).

(** Modelled from the spec: [UCBottomEdgePrivate::positionPanel]
    (ucbottomedge.cpp) is missing; the call and the position asked for are
    recorded in [calls]. *)
Definition positionPanel (position : qreal) (be : UCBottomEdge) : UCBottomEdge :=
  mkBottomEdge (commitPoint be) (content be) (contentComponent be)
               (calls be ++ [PositionPanel position]).

(** Property access by name, as [QQmlProperty] does it; an unknown name is
    an invalid property: reading gives nothing and writing is ignored. *)
Definition readProperty (property : string) (be : UCBottomEdge)
  : option PropertyState :=
  if String.eqb property "content" then Some (content be)
  else if String.eqb property "contentComponent" then Some (contentComponent be)
  else None.

Definition writeProperty (property : string) (s : PropertyState)
           (be : UCBottomEdge) : UCBottomEdge :=
  if String.eqb property "content" then
    mkBottomEdge (commitPoint be) s (contentComponent be) (calls be)
  else if String.eqb property "contentComponent" then
    mkBottomEdge (commitPoint be) (content be) s (calls be)
  else be.

(** ** PropertyChange *)

(** Modelled from the spec: the class [PropertyChange] of propertychange_p.h
    is missing.  The spec describes a range's overrides as "pushed/popped as
    temporary property replacements" that "must be restored on exit":
    creating a [PropertyChange] on a property remembers what the property
    holds, [setValue] and [setBinding] replace it, and destroying the
    [PropertyChange] puts the remembered state back.  A change created on a
    null target or an unknown property remembers nothing and restores
    nothing. *)
Record PropertyChange : Set := mkPropertyChange {
  pc_property : string;
  pc_backup : option PropertyState
}.

(** Modelled from the spec: the constructor of the missing [PropertyChange];
    it remembers what the property holds. *)
Definition newPropertyChange (target : option UCBottomEdge) (property : string)
  : PropertyChange :=
  mkPropertyChange property (target ≫= readProperty property).

(** Modelled from the spec: [PropertyChange::setValue], missing; the
    property now holds the value. *)
Definition setValue (change : PropertyChange) (v : QVariant)
           (be : UCBottomEdge) : UCBottomEdge :=
  writeProperty (pc_property change) (HoldsValue v) be.

(** Modelled from the spec: [PropertyChange::setBinding], missing; the
    property is now driven by the binding. *)
Definition setBinding (change : PropertyChange) (b : QQmlAbstractBinding)
           (be : UCBottomEdge) : UCBottomEdge :=
  writeProperty (pc_property change) (HoldsBinding b) be.

(** Modelled from the spec: the destructor of the missing
    [PropertyChange]; the property holds again what was remembered. *)
Definition deletePropertyChange (change : PropertyChange)
           (be : UCBottomEdge) : UCBottomEdge :=
  match pc_backup change with
  | Some old => writeProperty (pc_property change) old be
  | None => be
  end.

(** ** UCBottomEdgeRange *)

Inductive Signal : Set := entered | exited | dragEnded | toChanged.

Inductive Effect : Set :=
| Emit (s : Signal)
| Debug (message objectName : string).

(** The members of the class, followed by what the QML engine knows about
    the object: the bindings installed on its own [content] and
    [contentComponent] properties, its object name, and the signals and
    debug lines it has produced so far.  [m_bottomEdge] holds the state of
    the BottomEdge it points to, [None] for a null pointer. *)
Record UCBottomEdgeRange : Set := mkRange {
  m_bottomEdge : option UCBottomEdge;
  m_url : QUrl;
  m_component : option QQmlComponent;
  m_urlBackup : option PropertyChange;
  m_componentBackup : option PropertyChange;
  m_from : qreal;
  m_to : qreal;
  m_enabled : bool;
  m_commitToTop : bool;
  contentBinding : option QQmlAbstractBinding;
  contentComponentBinding : option QQmlAbstractBinding;
  objectName : string;
  trace : list Effect
}.

Definition set_bottomEdge (be : option UCBottomEdge) (r : UCBottomEdgeRange) :=
  mkRange be (m_url r) (m_component r) (m_urlBackup r) (m_componentBackup r)
          (m_from r) (m_to r) (m_enabled r) (m_commitToTop r)
          (contentBinding r) (contentComponentBinding r) (objectName r)
          (trace r).

Definition set_urlBackup (b : option PropertyChange) (r : UCBottomEdgeRange) :=
  mkRange (m_bottomEdge r) (m_url r) (m_component r) b (m_componentBackup r)
          (m_from r) (m_to r) (m_enabled r) (m_commitToTop r)
          (contentBinding r) (contentComponentBinding r) (objectName r)
          (trace r).

Definition set_componentBackup (b : option PropertyChange)
           (r : UCBottomEdgeRange) :=
  mkRange (m_bottomEdge r) (m_url r) (m_component r) (m_urlBackup r) b
          (m_from r) (m_to r) (m_enabled r) (m_commitToTop r)
          (contentBinding r) (contentComponentBinding r) (objectName r)
          (trace r).

Definition set_to (to : qreal) (r : UCBottomEdgeRange) :=
  mkRange (m_bottomEdge r) (m_url r) (m_component r) (m_urlBackup r)
          (m_componentBackup r) (m_from r) to (m_enabled r) (m_commitToTop r)
          (contentBinding r) (contentComponentBinding r) (objectName r)
          (trace r).

Definition log (e : Effect) (r : UCBottomEdgeRange) :=
  mkRange (m_bottomEdge r) (m_url r) (m_component r) (m_urlBackup r)
          (m_componentBackup r) (m_from r) (m_to r) (m_enabled r)
          (m_commitToTop r) (contentBinding r) (contentComponentBinding r)
          (objectName r) (trace r ++ [e]).

(** Apply a change to the BottomEdge the range points to, if any. *)
Definition onBottomEdge (f : UCBottomEdge → UCBottomEdge)
           (r : UCBottomEdgeRange) : UCBottomEdgeRange :=
  set_bottomEdge (f <$> m_bottomEdge r) r.

(** The constructor: [parent] is the result of
    [qobject_cast<UCBottomEdge*>(parent)]. *)
Definition newUCBottomEdgeRange (parent : option UCBottomEdge)
  : UCBottomEdgeRange :=
  mkRange parent InvalidUrl None None None 0%float (-1)%float true false
          None None "" [].

(** [QQml_setParent_noEvent] changes the QObject parent only, which is not
    part of the state here. *)
Definition attachToBottomEdge (bottomEdge : UCBottomEdge)
           (r : UCBottomEdgeRange) : UCBottomEdgeRange :=
  let r := set_bottomEdge (Some bottomEdge) r in
  (* adjust to property value if not set yet *)
  if qLe (m_to r) 0%float then
    log (Emit toChanged) (set_to (commitPoint bottomEdge) r)
  else r.

Definition onDragEnded (r : UCBottomEdgeRange) : UCBottomEdgeRange :=
  match m_bottomEdge r with
  | None => r
  | Some be =>
      if qEq (m_to r) (commitPoint be) || m_commitToTop r then
        onBottomEdge commit r
      else
        (* move the bottom edge panel to the to *)
        onBottomEdge (positionPanel (m_to r)) r
  end.

Definition dragInSection (r : UCBottomEdgeRange) (dragRatio : qreal) : bool :=
  m_enabled r && qGe dragRatio (m_from r) && qLe dragRatio (m_to r).

Definition enterSection (r : UCBottomEdgeRange) : UCBottomEdgeRange :=
  let r := log (Emit entered) r in
  (* backup url *)
  let r :=
    if isValid (m_url r) then
      let change := newPropertyChange (m_bottomEdge r) "content" in
      let r := set_urlBackup (Some change) r in
      match contentBinding r with
      | Some binding => onBottomEdge (setBinding change binding) r
      | None => onBottomEdge (setValue change (VariantUrl (m_url r))) r
      end
    else r in
  let r :=
    match m_component r with
    | Some _ =>
        let change := newPropertyChange (m_bottomEdge r) "contentComponent" in
        let r := set_componentBackup (Some change) r in
        match contentComponentBinding r with
        | Some binding => onBottomEdge (setBinding change binding) r
        | None =>
            onBottomEdge (setValue change (VariantComponent (m_component r))) r
        end
    | None => r
    end in
  log (Debug "SECTION ENTERED" (objectName r)) r.

Definition exitSection (r : UCBottomEdgeRange) : UCBottomEdgeRange :=
  let r :=
    match m_componentBackup r with
    | Some change =>
        set_componentBackup None (onBottomEdge (deletePropertyChange change) r)
    | None => r
    end in
  let r :=
    match m_urlBackup r with
    | Some change =>
        set_urlBackup None (onBottomEdge (deletePropertyChange change) r)
    | None => r
    end in
  let r := log (Emit exited) r in
  log (Debug "SECTION EXITED" (objectName r)) r.

(** The dragEnded signal is connected to [onDragEnded] with a direct
    connection in the constructor, so emitting it runs the slot at once. *)
Definition emitDragEnded (r : UCBottomEdgeRange) : UCBottomEdgeRange :=
  onDragEnded (log (Emit dragEnded) r).

(** What the attached BottomEdge holds in one of its properties. *)
Definition edgeProperty (property : string) (r : UCBottomEdgeRange)
  : option PropertyState :=
  m_bottomEdge r ≫= readProperty property.

(** The content override a range installs on entering: its binding when the
    property is bound, its value otherwise. *)
Definition contentOverride (r : UCBottomEdgeRange) : PropertyState :=
  match contentBinding r with
  | Some b => HoldsBinding b
  | None => HoldsValue (VariantUrl (m_url r))
  end.

Definition contentComponentOverride (r : UCBottomEdgeRange) : PropertyState :=
  match contentComponentBinding r with
  | Some b => HoldsBinding b
  | None => HoldsValue (VariantComponent (m_component r))
  end.

(** The drag is outside the section: no override of the section is in
    force, both backup pointers are null. *)
Definition outsideSection (r : UCBottomEdgeRange) : Prop :=
  m_urlBackup r = None ∧ m_componentBackup r = None.

(** ** Sample objects *)

(** [BottomEdgeRange { enabled: false; from: 0.0; to: 1.0 }] *)
Definition disabledRange : UCBottomEdgeRange :=
  mkRange None InvalidUrl None None None 0%float 1%float false false
          None None "" [].

(** A BottomEdge with [commitPoint: 1.0] showing a component. *)
Definition sampleEdge : UCBottomEdge :=
  mkBottomEdge 1%float (HoldsValue (VariantUrl InvalidUrl))
               (HoldsValue (VariantComponent (Some 7))) [].

(** [BottomEdgeRange { from: 0.25; to: 0.5; contentComponent: ... }] attached
    to [sampleEdge]. *)
Definition sampleRange : UCBottomEdgeRange :=
  mkRange (Some sampleEdge) (Url "qrc:/Section.qml") (Some 9) None None
          0.25%float 0.5%float true false None (Some 4) "section" [].

(** A second BottomEdge, committing at half height. *)
Definition halfEdge : UCBottomEdge :=
  mkBottomEdge 0.5%float (HoldsBinding 1) (HoldsValue (VariantComponent None))
               [].

End BottomEdge.

Module Arguments.

(** ** QString and QStringList operations used by the parser *)

Definition dash : ascii := "-"%char.
Definition equals : ascii := "="%char.

Definition isEmpty (s : string) : bool :=
  match s with EmptyString => true | String _ _ => false end.

Definition startsWith (c : ascii) (s : string) : bool :=
  match s with
  | EmptyString => false
  | String c' _ => Ascii.eqb c' c
  end.

(** [QString::split(sep)] with the default [KeepEmptyParts]: the pieces
    between separators, empty ones included; the empty string gives one
    empty piece. *)
Fixpoint split (sep : ascii) (s : string) : list string :=
  match s with
  | EmptyString => [EmptyString]
  | String c rest =>
      if Ascii.eqb c sep then EmptyString :: split sep rest
      else match split sep rest with
           | piece :: pieces => String c piece :: pieces
           | [] => [String c EmptyString]
           end
  end.

(** [QString::split(sep, QString::SkipEmptyParts)]. *)
Definition splitSkipEmptyParts (sep : ascii) (s : string) : list string :=
  List.filter (fun piece => negb (isEmpty piece)) (split sep s).

(** [QStringList::join(sep)]. *)
Definition join (sep : ascii) (pieces : list string) : string :=
  String.concat (String sep EmptyString) pieces.

(** ** QHash<QString, QStringList> *)

Abbreviation QHash := (gmap string (list string)).

Definition contains (h : QHash) (key : string) : bool :=
  match h !! key with Some _ => true | None => false end.

(** [QHash::operator[]] on a hash that is not const: a missing key is first
    inserted with a default-constructed (empty) list.  Returns the hash as
    it is afterwards and the list stored under the key. *)
Definition subscript (h : QHash) (key : string) : QHash * list string :=
  match h !! key with
  | Some v => (h, v)
  | None => (<[key := []]> h, [])
  end.

(** ** parseRawArguments *)

(** The local variables of [parseRawArguments].  [expectedArguments] is a
    by-value parameter, hence a local too, and [operator[]] changes it. *)
Record ParseState : Type := mkParse {
  argumentsValues : QHash;
  name : string;
  values : list string;
  expectedArguments : QHash
}.

(** insert values of previously parsed named argument *)
Definition insertParsed (st : ParseState) : QHash :=
  if negb (isEmpty (name st)) then
    <[name st := values st]> (argumentsValues st)
  else argumentsValues st.

(** remove all prepended '-' *)
Definition stripDashes (rawArgument : string) : string :=
  join dash (splitSkipEmptyParts dash rawArgument).

(** What a token that starts with a dash is read as. *)
Definition argumentName (rawArgument : string) : string :=
  hd EmptyString (split equals (stripDashes rawArgument)).

Definition initialValues (rawArgument : string) : list string :=
  tl (split equals (stripDashes rawArgument)).

(** One iteration of the loop body. *)
Definition parseToken (st : ParseState) (rawArgument : string) : ParseState :=
  if startsWith dash rawArgument then
    let argumentsValues := insertParsed st in
    (* it starts with a '-' therefore it is a named argument *)
    let rawArgument := stripDashes rawArgument in
    (* string after the '=' sign is a value for the argument *)
    let values := split equals rawArgument in
    (* name = values.takeAt(0) *)
    mkParse argumentsValues (hd EmptyString values) (tl values)
            (expectedArguments st)
  else
    if negb (contains (expectedArguments st) (name st))
       && (length (values st) =? 0)%nat then
      (* unexpected named arguments are given at most one value *)
      mkParse (argumentsValues st) (name st) (values st ++ [rawArgument])
              (expectedArguments st)
    else
      let '(expectedArguments, valueNames) :=
        subscript (expectedArguments st) (name st) in
      if (length (values st) <? length valueNames)%nat then
        (* additional value for a named argument *)
        mkParse (argumentsValues st) (name st) (values st ++ [rawArgument])
                expectedArguments
      else
        let argumentsValues := insertParsed st in
        (* default/unnamed argument *)
        let '(argumentsValues, unnamed) :=
          subscript argumentsValues EmptyString in
        mkParse (<[EmptyString := (unnamed ++ [rawArgument])%list]> argumentsValues)
                (name st) (values st) expectedArguments.

Definition initialParse (expectedArguments : QHash) : ParseState :=
  mkParse ∅ EmptyString [] expectedArguments.

(** The state of the locals after the loop has consumed [tokens]. *)
Definition parseLoop (expectedArguments : QHash) (tokens : list string)
  : ParseState :=
  fold_left parseToken tokens (initialParse expectedArguments).

(** The loop starts at [++rawArguments.begin()]; on an empty list that
    iterator is already past the end and the behaviour is undefined, which
    is [None] here. *)
Definition parseRawArguments (rawArguments : list string)
           (expectedArguments : QHash) : option QHash :=
  match rawArguments with
  | [] => None
  | _ :: tokens => Some (argumentsValues (parseLoop expectedArguments tokens))
  end.

(** The list stored under a key of the result, empty when there is none. *)
Definition valuesOf (h : QHash) (key : string) : list string :=
  default [] (h !! key).

(** [n] dashes in front of [s]. *)
Fixpoint dashes (n : nat) (s : string) : string :=
  match n with
  | O => s
  | S n => String dash (dashes n s)
  end.

(** The number of following tokens a pending argument still takes when no
    value names are declared for it. *)
Definition room (st : ParseState) : nat :=
  if negb (contains (expectedArguments st) (name st))
     && (length (values st) =? 0)%nat then 1 else 0.

(** ** quitAndPrintUsage *)

Inductive Output : Set :=
| Warning (text : string)
| Exit (returnCode : Z).

Definition endl : string := String (ascii_of_nat 10) EmptyString.

(** [toStdString().c_str()] streamed into [qWarning()]: a C string, read up
    to its first NUL character. *)
Fixpoint cString (s : string) : string :=
  match s with
  | EmptyString => EmptyString
  | String c rest =>
      if Ascii.eqb c Ascii.zero then EmptyString else String c (cString rest)
  end.

(** What [quitAndPrintUsage] writes and requests, in order: two warnings
    and the call [QCoreApplication::exit(-1)], after which the function
    returns.  [m_rawArguments[0]] on an empty list is out of range:
    [None]. *)
Definition quitAndPrintUsage (m_rawArguments : list string)
           (errorMessage : string) : option (list Output) :=
  match m_rawArguments with
  | [] => None
  | applicationBinary :: _ =>
      let usage := EmptyString in
      let usage := usage ++ "Usage: " in
      let usage := usage ++ applicationBinary ++ endl in
      let usage := usage ++ "Options:" ++ endl in
      (* convert to char* to avoid qWarning printing out quotes *)
      Some [Warning (cString errorMessage); Warning (cString usage);
            Exit (-1)]
  end.

(** ** UCArgument and UCArguments *)

(** Modelled from the spec: the class [UCArgument] (ucargument.h) is
    missing; the spec gives an argument a "name" and a "list of expected
    value names", which the accessors [name()] and [valueNames()] return. *)
Module UCArgument.
Record t : Set := make {
  name : string;
  valueNames : list string
}.
End UCArgument.

Inductive ArgumentsSignal : Set := defaultArgumentChanged.

(** The members of [UCArguments] and the signals it has emitted.  Pointers
    to [UCArgument] objects are the objects themselves; nothing here writes
    through them. *)
Record UCArguments : Type := mkArguments {
  m_rawArguments : list string;
  m_defaultArgument : option UCArgument.t;
  m_arguments : list UCArgument.t;
  m_expectedArguments : QHash;
  m_argumentsValues : QHash;
  emitted : list ArgumentsSignal
}.

(** The constructor; [applicationArguments] is what
    [QCoreApplication::arguments()] returns. *)
Definition newUCArguments (applicationArguments : list string) : UCArguments :=
  mkArguments applicationArguments None [] ∅ ∅ [].

Definition defaultArgument (s : UCArguments) : option UCArgument.t :=
  m_defaultArgument s.

Definition setDefaultArgument (argument : option UCArgument.t)
           (s : UCArguments) : UCArguments :=
  mkArguments (m_rawArguments s) argument (m_arguments s)
              (m_expectedArguments s) (m_argumentsValues s)
              (emitted s ++ [defaultArgumentChanged]).

Definition buildExpectedArguments (declaredArguments : list UCArgument.t)
  : QHash :=
  fold_left
    (fun expectedArguments argument =>
       <[UCArgument.name argument := UCArgument.valueNames argument]>
         expectedArguments)
    declaredArguments ∅.

(** [None] where [parseRawArguments] is undefined. *)
Definition appendArguments (argument : UCArgument.t) (s : UCArguments)
  : option UCArguments :=
  let arguments := (m_arguments s ++ [argument])%list in
  let expectedArguments := buildExpectedArguments arguments in
  match parseRawArguments (m_rawArguments s) expectedArguments with
  | Some argumentsValues =>
      Some (mkArguments (m_rawArguments s) (m_defaultArgument s) arguments
                        expectedArguments argumentsValues (emitted s))
  | None => None
  end.

(** [QList::at] needs [0 <= index < size()]; anything else is [None]. *)
Definition atArguments (index : Z) (s : UCArguments) : option UCArgument.t :=
  if (0 <=? index)%Z && (index <? Z.of_nat (length (m_arguments s)))%Z then
    m_arguments s !! Z.to_nat index
  else None.

Definition countArguments (s : UCArguments) : Z :=
  Z.of_nat (length (m_arguments s)).

Definition clearArguments (s : UCArguments) : option UCArguments :=
  match parseRawArguments (m_rawArguments s) ∅ with
  | Some argumentsValues =>
      Some (mkArguments (m_rawArguments s) (m_defaultArgument s) [] ∅
                        argumentsValues (emitted s))
  | None => None
  end.

(** The three members that depend on each other agree: the expected
    arguments are built from the declared ones and the values are the
    parse of the raw arguments against them. *)
Definition inSync (s : UCArguments) : Prop :=
  m_expectedArguments s = buildExpectedArguments (m_arguments s)
  ∧ parseRawArguments (m_rawArguments s) (m_expectedArguments s)
    = Some (m_argumentsValues s).

(** ** What the class writes *)

(** The two [qDebug()] lines of the class, with the data they show, and
    what [quitAndPrintUsage] reports. *)
Inductive Written : Type :=
| DebugRawArguments (rawArguments : list string)
| DebugParsing (argumentsValues : QHash)
| Reported (output : Output).

Definition isDebug (w : Written) : bool :=
  match w with
  | DebugRawArguments _ | DebugParsing _ => true
  | Reported _ => false
  end.

(** An object together with everything written since its construction,
    oldest first. *)
Abbreviation Run := (UCArguments * list Written)%type.

(** The constructor writes the raw arguments. *)
Definition constructed (applicationArguments : list string) : Run :=
  (newUCArguments applicationArguments,
   [DebugRawArguments applicationArguments]).

(** [appendArguments] and [clearArguments] write what the
    [parseRawArguments] they call writes: the table it returns. *)
Definition appended (argument : UCArgument.t) (r : Run) : option Run :=
  match appendArguments argument r.1 with
  | Some s => Some (s, (r.2 ++ [DebugParsing (m_argumentsValues s)])%list)
  | None => None
  end.

Definition cleared (r : Run) : option Run :=
  match clearArguments r.1 with
  | Some s => Some (s, (r.2 ++ [DebugParsing (m_argumentsValues s)])%list)
  | None => None
  end.

Definition quitAndPrintUsageCalled (errorMessage : string) (r : Run)
  : option Run :=
  match quitAndPrintUsage (m_rawArguments r.1) errorMessage with
  | Some outputs => Some (r.1, (r.2 ++ map Reported outputs)%list)
  | None => None
  end.

(** The functions of the class that change the object, [quitAndPrintUsage]
    apart. *)
Inductive Call : Set :=
| CallAppendArguments (argument : UCArgument.t)
| CallClearArguments
| CallSetDefaultArgument (argument : option UCArgument.t).

Definition call (c : Call) (r : Run) : option Run :=
  match c with
  | CallAppendArguments argument => appended argument r
  | CallClearArguments => cleared r
  | CallSetDefaultArgument argument =>
      Some (setDefaultArgument argument r.1, r.2)
  end.

(** A sequence of calls, one after the other. *)
Fixpoint session (cs : list Call) (r : Run) : option Run :=
  match cs with
  | [] => Some r
  | c :: cs =>
      match call c r with
      | Some r' => session cs r'
      | None => None
      end
  end.

(** A declared argument was given on the command line with fewer values
    than it has value names. *)
Definition missingValues (s : UCArguments) : Prop :=
  ∃ argument given,
    In argument (m_arguments s)
    ∧ m_argumentsValues s !! UCArgument.name argument = Some given
    ∧ (length given < length (UCArgument.valueNames argument))%nat.

(** The usage text for a binary name. *)
Definition usageText (applicationBinary : string) : string :=
  "Usage: " ++ applicationBinary ++ endl ++ "Options:" ++ endl.

(** A string without the character [sep]. *)
Definition freeOf (sep : ascii) (s : string) : Prop := split sep s = [s].

(** [key] is the empty name or the name read from one of [tokens] that
    starts with a dash. *)
Definition namedBy (tokens : list string) (key : string) : Prop :=
  key = EmptyString
  ∨ ∃ t, In t tokens ∧ startsWith dash t = true ∧ key = argumentName t.

(** [--verbose] without values and [--size] with a width and a height. *)
Definition verboseArgument : UCArgument.t := UCArgument.make "verbose" [].
Definition sizeArgument : UCArgument.t :=
  UCArgument.make "size" ["width"; "height"].

End Arguments.

Module ItemExtension.

(** ** The visual tree *)

(** An item with its address, whether [qobject_cast<UCStyledItemBase*>]
    succeeds on it, and its child items in order. *)
#[local] Unset Elimination Schemes.
Inductive QQuickItem : Set :=
| Item (address : nat) (styledItemBase : bool) (childItems : list QQuickItem).
#[local] Set Elimination Schemes.

Definition address (item : QQuickItem) : nat :=
  match item with Item a _ _ => a end.

Definition styledItemBase (item : QQuickItem) : bool :=
  match item with Item _ s _ => s end.

Definition childItems (item : QQuickItem) : list QQuickItem :=
  match item with Item _ _ cs => cs end.

(** ** UCThemeUpdateEvent *)

Inductive EventType : Set := styledItemEventId | themeEventId.

Record UCThemeUpdateEvent : Set := mkEvent {
  type : EventType;
  m_ascendantStyled : option nat;
  m_theme : option nat
}.

Definition newStyledItemEvent (newStyled : option nat) : UCThemeUpdateEvent :=
  mkEvent styledItemEventId newStyled None.

Definition newThemeEvent (theme : option nat) : UCThemeUpdateEvent :=
  mkEvent themeEventId None theme.

(** ** Event delivery by the application *)

(** [delivered]: events handed to their receiver by [sendEvent], which
    returns only after the receiver has handled the event.  [queued]: events
    left in the event queue by [postEvent], handled some time after the
    caller has returned. *)
Record QGuiApplication : Set := mkApp {
  delivered : list (nat * UCThemeUpdateEvent);
  queued : list (nat * UCThemeUpdateEvent)
}.

Definition sendEvent (receiver : QQuickItem) (event : UCThemeUpdateEvent)
           (app : QGuiApplication) : QGuiApplication :=
  mkApp (delivered app ++ [(address receiver, event)]) (queued app).

Definition postEvent (receiver : QQuickItem) (event : UCThemeUpdateEvent)
           (app : QGuiApplication) : QGuiApplication :=
  mkApp (delivered app) (queued app ++ [(address receiver, event)]).

(** [//#define ASYNC_BROADCAST]: the macro is not defined. *)
Definition ASYNC_BROADCAST : bool := false.

Definition dispatch (receiver : QQuickItem) (event : UCThemeUpdateEvent)
           (app : QGuiApplication) : QGuiApplication :=
  if ASYNC_BROADCAST then postEvent receiver event app
  else sendEvent receiver event app.

(** boadcast parent change to the children recoursively *)
Fixpoint broadcastAscendantUpdate (item : QQuickItem)
         (ascendantStyled : option nat) (app : QGuiApplication)
  : QGuiApplication :=
  match item with
  | Item _ _ children =>
      fold_left
        (fun app child =>
           let app := dispatch child (newStyledItemEvent ascendantStyled) app in
           if (0 <? length (childItems child))%nat then
             broadcastAscendantUpdate child ascendantStyled app
           else app)
        children app
  end.

Fixpoint broadcastThemeUpdate (item : QQuickItem) (theme : option nat)
         (app : QGuiApplication) : QGuiApplication :=
  match item with
  | Item _ _ children =>
      fold_left
        (fun app child =>
           let app := dispatch child (newThemeEvent theme) app in
           if (0 <? length (childItems child))%nat
              && negb (styledItemBase child) then
             broadcastThemeUpdate child theme app
           else app)
        children app
  end.

(** handle parent changes: the slot connected to the extended item's
    [parentChanged] signal. *)
Definition handleParentChanged (m_item : QQuickItem)
           (newParent : option QQuickItem) (app : QGuiApplication)
  : QGuiApplication :=
  broadcastAscendantUpdate m_item None app.

(** ** Vocabulary for the tree *)

(** [descendant item d]: [d] is a child of [item], or a child of a child,
    and so on. *)
Inductive descendant (item : QQuickItem) : QQuickItem → Prop :=
| descendant_child c :
    In c (childItems item) → descendant item c
| descendant_deeper c d :
    In c (childItems item) → descendant c d → descendant item d.

(** Everything below an item, parents before their children and siblings
    in order. *)
Fixpoint descendants (item : QQuickItem) : list QQuickItem :=
  match item with
  | Item _ _ children => flat_map (fun c => c :: descendants c) children
  end.

(** The addresses of an item and of everything below it.  Items are
    distinct objects when this list has no duplicates. *)
Definition addresses (item : QQuickItem) : list nat :=
  address item :: map address (descendants item).

(** [themeReach item d]: [d] is below [item] and no item strictly between
    the two is a styled item. *)
Inductive themeReach (item : QQuickItem) : QQuickItem → Prop :=
| themeReach_child c :
    In c (childItems item) → themeReach item c
| themeReach_deeper c d :
    In c (childItems item) → styledItemBase c = false →
    themeReach c d → themeReach item d.

(** The same as a list, in the order of [descendants]. *)
Fixpoint themeTargets (item : QQuickItem) : list QQuickItem :=
  match item with
  | Item _ _ children =>
      flat_map
        (fun c => c :: (if styledItemBase c then [] else themeTargets c))
        children
  end.

(** The receivers of the events delivered so far, oldest first. *)
Definition receivers (app : QGuiApplication) : list nat :=
  map fst (delivered app).

Definition idle : QGuiApplication := mkApp [] [].

(** A page with a styled button that has a label inside, and a plain row
    holding an icon. *)
Definition sampleLabel : QQuickItem := Item 2 false [].
Definition sampleButton : QQuickItem := Item 1 true [sampleLabel].
Definition sampleIcon : QQuickItem := Item 4 false [].
Definition sampleRow : QQuickItem := Item 3 false [sampleIcon].
Definition samplePage : QQuickItem := Item 0 false [sampleButton; sampleRow].

End ItemExtension.

(** * Properties of the bottom edge range *)

Section BottomEdgeRange.

Import BottomEdge.

(** ** Ordering facts about doubles *)

Lemma Prim2SF_zero : Prim2SF 0%float = S754_zero false.
Proof. reflexivity. Qed.

(** Something below a value that is at most zero is below every value that
    is above zero.  No NaN can occur: each hypothesis is a comparison that
    came out true. *)
Lemma qLt_nonpositive_positive (x y z : qreal) :
  qLt x y = true → qLe y 0%float = true → qLt 0%float z = true →
  qLt x z = true.
Proof.
  unfold qLt, qLe.
  rewrite !ltb_spec, leb_spec, Prim2SF_zero.
  unfold SFltb, SFleb.
  destruct (Prim2SF x) as [[]|[]| |[] mx ex],
           (Prim2SF y) as [[]|[]| |[] my ey],
           (Prim2SF z) as [[]|[]| |[] mz ez];
    cbn [SFcompare]; intros Hxy Hy Hz;
    try reflexivity; try discriminate Hy; try discriminate Hz;
    try discriminate Hxy.
Qed.

(** ** Field bookkeeping *)

Lemma enterSection_bounds (r : UCBottomEdgeRange) :
  m_from (enterSection r) = m_from r ∧ m_to (enterSection r) = m_to r.
Proof.
  destruct r as [e u c ub cb f t en ct bnd cbnd nm tr].
  destruct u, c, bnd, cbnd; split; reflexivity.
Qed.

Lemma exitSection_bounds (r : UCBottomEdgeRange) :
  m_from (exitSection r) = m_from r ∧ m_to (exitSection r) = m_to r.
Proof.
  destruct r as [e u c ub cb f t en ct bnd cbnd nm tr].
  destruct ub, cb; split; reflexivity.
Qed.

Lemma onDragEnded_bounds (r : UCBottomEdgeRange) :
  m_from (onDragEnded r) = m_from r ∧ m_to (onDragEnded r) = m_to r.
Proof.
  unfold onDragEnded.
  destruct (m_bottomEdge r) as [be|]; [|split; reflexivity].
  destruct (qEq (m_to r) (commitPoint be) || m_commitToTop r);
    split; reflexivity.
Qed.

Lemma attachToBottomEdge_from (be : UCBottomEdge) (r : UCBottomEdgeRange) :
  m_from (attachToBottomEdge be r) = m_from r.
Proof.
  unfold attachToBottomEdge. cbn -[qLe].
  destruct (qLe (m_to r) 0%float); reflexivity.
Qed.

Lemma attachToBottomEdge_to (be : UCBottomEdge) (r : UCBottomEdgeRange) :
  m_to (attachToBottomEdge be r) =
  if qLe (m_to r) 0%float then commitPoint be else m_to r.
Proof.
  unfold attachToBottomEdge. cbn -[qLe].
  destruct (qLe (m_to r) 0%float); reflexivity.
Qed.

(** ** C1 *)

(** C1, as stated, fails: a disabled range with from = 0.0 and to = 1.0
    rejects the ratio 0.5 although 0.0 ≤ 0.5 ≤ 1.0. *)
Lemma dragInSection_disabled_counterexample :
  ¬ (dragInSection disabledRange 0.5%float = true ↔
     qLe (m_from disabledRange) 0.5%float = true
     ∧ qLe 0.5%float (m_to disabledRange) = true).
Proof.
  intros [_ H].
  assert (Hin : dragInSection disabledRange 0.5%float = true)
    by (apply H; split; reflexivity).
  discriminate Hin.
Qed.

(** C1 (amended): for every range and drag ratio, [dragInSection] returns
    true if and only if the range is enabled and from ≤ ratio ≤ to. *)
Theorem dragInSection_iff (r : UCBottomEdgeRange) (dragRatio : qreal) :
  dragInSection r dragRatio = true ↔
  m_enabled r = true
  ∧ qLe (m_from r) dragRatio = true
  ∧ qLe dragRatio (m_to r) = true.
Proof.
  unfold dragInSection, qGe, qLe.
  rewrite !andb_true_iff. tauto.
Qed.

(** ** C2 *)

(** The drag is outside a section when the section is created and whenever
    it has been left; attaching and ending a drag do not change that. *)
Lemma outsideSection_established :
  (∀ parent, outsideSection (newUCBottomEdgeRange parent))
  ∧ (∀ r, outsideSection (exitSection r))
  ∧ (∀ be r, outsideSection r → outsideSection (attachToBottomEdge be r))
  ∧ (∀ r, outsideSection r → outsideSection (onDragEnded r)).
Proof.
  unfold outsideSection. repeat split.
  - destruct r as [e u c [ub|] [cb|] f t en ct bnd cbnd nm tr]; reflexivity.
  - destruct r as [e u c [ub|] [cb|] f t en ct bnd cbnd nm tr]; reflexivity.
  - unfold attachToBottomEdge. cbn -[qLe].
    destruct (qLe (m_to r) 0%float); apply H.
  - unfold attachToBottomEdge. cbn -[qLe].
    destruct (qLe (m_to r) 0%float); apply H.
  - unfold onDragEnded. destruct (m_bottomEdge r) as [be|]; [|apply H].
    destruct (qEq (m_to r) (commitPoint be) || m_commitToTop r); apply H.
  - unfold onDragEnded. destruct (m_bottomEdge r) as [be|]; [|apply H].
    destruct (qEq (m_to r) (commitPoint be) || m_commitToTop r); apply H.
Qed.

(** C2: when the drag enters a section attached to a BottomEdge, the
    BottomEdge's content (if the section has a valid url) and
    contentComponent (if it has a component) are replaced by the section's
    binding or value; when the drag leaves again, the BottomEdge is exactly
    as it was before the section was entered, and both backups are gone. *)
Theorem exitSection_restores_enterSection
        (r : UCBottomEdgeRange) (be : UCBottomEdge) :
  m_bottomEdge r = Some be →
  outsideSection r →
  let inside := enterSection r in
  let outside := exitSection inside in
  edgeProperty "content" inside
  = Some (if isValid (m_url r) then contentOverride r else content be)
  ∧ edgeProperty "contentComponent" inside
    = Some (match m_component r with
            | Some _ => contentComponentOverride r
            | None => contentComponent be
            end)
  ∧ edgeProperty "content" outside = Some (content be)
  ∧ edgeProperty "contentComponent" outside = Some (contentComponent be)
  ∧ m_bottomEdge outside = Some be
  ∧ outsideSection outside.
Proof.
  destruct r as [e u c ub cb f t en ct bnd cbnd nm tr], be as [cp co cc cl].
  unfold outsideSection. cbn [m_bottomEdge m_urlBackup m_componentBackup].
  intros -> [-> ->].
  destruct u as [|text], c as [comp|], bnd as [b|], cbnd as [b'|];
    cbv; repeat split; reflexivity.
Qed.

Lemma exitSection_restores_enterSection_witness :
  m_bottomEdge sampleRange = Some sampleEdge
  ∧ outsideSection sampleRange
  ∧ edgeProperty "contentComponent" (enterSection sampleRange)
    = Some (HoldsBinding 4)
  ∧ m_bottomEdge (exitSection (enterSection sampleRange)) = Some sampleEdge.
Proof.
  pose proof (exitSection_restores_enterSection sampleRange sampleEdge
                eq_refl (conj eq_refl eq_refl)) as H.
  split; [reflexivity|]. split; [split; reflexivity|].
  split; [apply H|apply H].
Defined.

(** ** C3 *)

(** C3, as stated, fails at construction: a new range has from = 0.0 and
    to = -1.0, and -1.0 > 0.0 is false. *)
Lemma constructor_to_not_above_from :
  m_from (newUCBottomEdgeRange None) = 0%float
  ∧ m_to (newUCBottomEdgeRange None) = (-1)%float
  ∧ qLt (m_from (newUCBottomEdgeRange None))
        (m_to (newUCBottomEdgeRange None)) ≠ true.
Proof.
  split; [reflexivity|]. split; [reflexivity|].
  intros H. vm_compute in H. discriminate H.
Qed.

(** C3 (amended): the constructor leaves to unset (-1.0, below from = 0.0).
    For a BottomEdge whose commitPoint is above zero, [attachToBottomEdge]
    replaces to by the commitPoint exactly when to ≤ 0 and never touches
    from; it makes to > from hold on a newly constructed range and keeps it
    on any range where it holds.  [onDragEnded], [enterSection] and
    [exitSection] change neither from nor to. *)
Theorem to_above_from (be : UCBottomEdge) :
  qLt 0%float (commitPoint be) = true →
  (∀ parent,
     let r := attachToBottomEdge be (newUCBottomEdgeRange parent) in
     m_to r = commitPoint be ∧ qLt (m_from r) (m_to r) = true)
  ∧ (∀ r,
       m_from (attachToBottomEdge be r) = m_from r
       ∧ m_to (attachToBottomEdge be r)
         = (if qLe (m_to r) 0%float then commitPoint be else m_to r)
       ∧ (qLt (m_from r) (m_to r) = true →
          qLt (m_from (attachToBottomEdge be r))
              (m_to (attachToBottomEdge be r)) = true))
  ∧ (∀ r,
       (m_from (onDragEnded r) = m_from r ∧ m_to (onDragEnded r) = m_to r)
       ∧ (m_from (enterSection r) = m_from r
          ∧ m_to (enterSection r) = m_to r)
       ∧ (m_from (exitSection r) = m_from r
          ∧ m_to (exitSection r) = m_to r)).
Proof.
  intros Hcp. split; [|split].
  - intros parent. cbn. split; [reflexivity|exact Hcp].
  - intros r. split; [apply attachToBottomEdge_from|].
    split; [apply attachToBottomEdge_to|].
    intros Hinv.
    rewrite attachToBottomEdge_from, attachToBottomEdge_to.
    destruct (qLe (m_to r) 0%float) eqn:Hto; [|exact Hinv].
    exact (qLt_nonpositive_positive _ _ _ Hinv Hto Hcp).
  - intros r. split; [apply onDragEnded_bounds|].
    split; [apply enterSection_bounds|apply exitSection_bounds].
Qed.

Lemma to_above_from_witness :
  qLt 0%float (commitPoint sampleEdge) = true
  ∧ qLt (m_from (attachToBottomEdge sampleEdge (newUCBottomEdgeRange None)))
        (m_to (attachToBottomEdge sampleEdge (newUCBottomEdgeRange None)))
    = true.
Proof.
  split; [reflexivity|].
  exact (proj2 (proj1 (to_above_from sampleEdge eq_refl) None)).
Defined.

(** ** C6 *)

(** C6: when the drag ends in a section attached to a BottomEdge, the
    BottomEdge is committed if the section's to equals the commitPoint or
    commitToTop is set, and otherwise its panel is positioned at the
    section's to; nothing else about the section changes. *)
Theorem onDragEnded_commits_or_positions
        (r : UCBottomEdgeRange) (be : UCBottomEdge) :
  m_bottomEdge r = Some be →
  (qEq (m_to r) (commitPoint be) = true ∨ m_commitToTop r = true →
   onDragEnded r = set_bottomEdge (Some (commit be)) r
   ∧ calls (commit be) = (calls be ++ [Commit])%list)
  ∧ (qEq (m_to r) (commitPoint be) = false ∧ m_commitToTop r = false →
     onDragEnded r = set_bottomEdge (Some (positionPanel (m_to r) be)) r
     ∧ calls (positionPanel (m_to r) be)
       = (calls be ++ [PositionPanel (m_to r)])%list).
Proof.
  intros Hbe. unfold onDragEnded, onBottomEdge. rewrite Hbe. cbn [fmap option_fmap option_map].
  split.
  - intros H.
    assert (Hc : qEq (m_to r) (commitPoint be) || m_commitToTop r = true)
      by (apply orb_true_iff; exact H).
    rewrite Hc. split; reflexivity.
  - intros [H1 H2]. rewrite H1, H2. split; reflexivity.
Qed.

Lemma onDragEnded_commits_or_positions_witness :
  m_bottomEdge sampleRange = Some sampleEdge
  ∧ onDragEnded sampleRange
    = set_bottomEdge (Some (positionPanel 0.5%float sampleEdge)) sampleRange.
Proof.
  split; [reflexivity|].
  apply (onDragEnded_commits_or_positions sampleRange sampleEdge eq_refl).
  split; reflexivity.
Defined.

End BottomEdgeRange.

(** * Properties of the argument parser *)

Section ArgumentParser.

Import Arguments.

(** ** Strings *)

Lemma append_assoc (s1 s2 s3 : string) :
  ((s1 ++ s2) ++ s3 = s1 ++ (s2 ++ s3))%string.
Proof.
  induction s1 as [|c s1 IH]; [reflexivity|].
  change (String c ((s1 ++ s2) ++ s3) = String c (s1 ++ (s2 ++ s3)))%string.
  rewrite IH. reflexivity.
Qed.

Lemma split_nonempty (sep : ascii) (s : string) : split sep s ≠ [].
Proof.
  destruct s as [|c s]; cbn; [discriminate|].
  destruct (Ascii.eqb c sep); [discriminate|].
  destruct (split sep s); discriminate.
Qed.

Lemma join_cons_nonempty (sep : ascii) (piece : string)
      (pieces : list string) :
  pieces ≠ [] →
  join sep (piece :: pieces)
  = (piece ++ String sep EmptyString ++ join sep pieces)%string.
Proof. destruct pieces; [contradiction|reflexivity]. Qed.

Lemma join_cons_char (sep c : ascii) (piece : string) (pieces : list string) :
  join sep (String c piece :: pieces) = String c (join sep (piece :: pieces)).
Proof. destruct pieces; reflexivity. Qed.

(** Joining the pieces of a split gives the string back. *)
Lemma join_split (sep : ascii) (s : string) : join sep (split sep s) = s.
Proof.
  induction s as [|c s IH]; [reflexivity|].
  cbn [split]. destruct (Ascii.eqb c sep) eqn:Hc.
  - apply Ascii.eqb_eq in Hc. subst c.
    rewrite join_cons_nonempty by apply split_nonempty.
    rewrite IH. reflexivity.
  - pose proof (split_nonempty sep s) as Hne.
    destruct (split sep s) as [|piece pieces] eqn:Hs; [contradiction|].
    rewrite join_cons_char, IH. reflexivity.
Qed.

(** A dash in front of a token leaves no trace after stripping. *)
Lemma stripDashes_dash (s : string) :
  stripDashes (String dash s) = stripDashes s.
Proof. reflexivity. Qed.

(** When the text after the prepended dashes has no empty piece between
    dashes (no leading, trailing or doubled dash), stripping returns exactly
    that text. *)
Lemma stripDashes_prepended (n : nat) (body : string) :
  Forall (fun piece => isEmpty piece = false) (split dash body) →
  stripDashes (dashes n body) = body.
Proof.
  intros Hclean. induction n as [|n IH].
  - cbn [dashes]. unfold stripDashes, splitSkipEmptyParts.
    rewrite (forallb_filter_id _ (split dash body)).
    + apply join_split.
    + apply forallb_forall. rewrite Forall_forall in Hclean.
      intros piece Hin. rewrite (Hclean piece); [reflexivity|].
      apply list_elem_of_In. exact Hin.
  - cbn [dashes]. rewrite stripDashes_dash. exact IH.
Qed.

(** ** One token *)

Lemma parseToken_dash (st : ParseState) (rawArgument : string) :
  startsWith dash rawArgument = true →
  parseToken st rawArgument
  = mkParse (insertParsed st) (argumentName rawArgument)
            (initialValues rawArgument) (expectedArguments st).
Proof. intros H. unfold parseToken. rewrite H. reflexivity. Qed.

Lemma isEmpty_false (s : string) : isEmpty s = false → s ≠ EmptyString.
Proof. destruct s; [discriminate|discriminate]. Qed.

Lemma valuesOf_insertParsed_unnamed (st : ParseState) :
  valuesOf (insertParsed st) EmptyString
  = valuesOf (argumentsValues st) EmptyString.
Proof.
  unfold insertParsed, valuesOf.
  destruct (isEmpty (name st)) eqn:Hn; cbn [negb]; [reflexivity|].
  rewrite lookup_insert_ne; [reflexivity|].
  apply isEmpty_false. exact Hn.
Qed.

Lemma subscript_value (h : QHash) (key : string) :
  (subscript h key).2 = valuesOf h key.
Proof. unfold subscript, valuesOf. destruct (h !! key); reflexivity. Qed.

Lemma subscript_valuesOf (h : QHash) (key other : string) :
  valuesOf (subscript h key).1 other = valuesOf h other.
Proof.
  unfold subscript, valuesOf. destruct (h !! key) eqn:Hk; [reflexivity|].
  cbn [fst]. destruct (decide (key = other)) as [->|Hne].
  - rewrite lookup_insert_eq, Hk. reflexivity.
  - rewrite lookup_insert_ne by exact Hne. reflexivity.
Qed.

Lemma subscript_contains (h : QHash) (key : string) :
  contains (subscript h key).1 key = true.
Proof.
  unfold subscript, contains. destruct (h !! key) eqn:Hk; cbn [fst].
  - rewrite Hk. reflexivity.
  - rewrite lookup_insert_eq. reflexivity.
Qed.

(** [operator[]] may add keys to the local copy of the expected arguments,
    but what is stored under any key, read with an empty default, never
    changes. *)
Lemma parseToken_expected (st : ParseState) (rawArgument key : string) :
  valuesOf (expectedArguments (parseToken st rawArgument)) key
  = valuesOf (expectedArguments st) key.
Proof.
  unfold parseToken.
  destruct (startsWith dash rawArgument); [reflexivity|].
  destruct (negb (contains (expectedArguments st) (name st))
            && (length (values st) =? 0)%nat); [reflexivity|].
  pose proof (subscript_valuesOf (expectedArguments st) (name st) key) as H.
  destruct (subscript (expectedArguments st) (name st)) as [e v].
  cbn [fst] in H.
  destruct (length (values st) <? length v)%nat; [exact H|].
  destruct (subscript (insertParsed st) EmptyString). exact H.
Qed.

Lemma fold_parseToken_expected (tokens : list string) (st : ParseState)
      (key : string) :
  valuesOf (expectedArguments (fold_left parseToken tokens st)) key
  = valuesOf (expectedArguments st) key.
Proof.
  revert st. induction tokens as [|t tokens IH]; intros st; [reflexivity|].
  cbn [fold_left]. rewrite IH. apply parseToken_expected.
Qed.

Lemma room_le_1 (st : ParseState) : (room st ≤ 1)%nat.
Proof. unfold room. destruct (_ && _); lia. Qed.

(** A run of tokens without a leading dash, read while the pending
    argument has no declared value names. *)
Lemma fold_parseToken_plain (tokens : list string) :
  Forall (fun t => startsWith dash t = false) tokens →
  ∀ st,
    valuesOf (expectedArguments st) (name st) = [] →
    name (fold_left parseToken tokens st) = name st
    ∧ values (fold_left parseToken tokens st)
      = (values st ++ take (room st) tokens)%list
    ∧ valuesOf (argumentsValues (fold_left parseToken tokens st)) EmptyString
      = (valuesOf (argumentsValues st) EmptyString
         ++ drop (room st) tokens)%list.
Proof.
  induction 1 as [|t tokens Ht _ IH]; intros st Hexp.
  - cbn. rewrite take_nil, drop_nil, !app_nil_r. auto.
  - cbn [fold_left].
    destruct (negb (contains (expectedArguments st) (name st))
              && (length (values st) =? 0)%nat) eqn:Hroom.
    + (* the token becomes the one value *)
      assert (Hstep : parseToken st t
                      = mkParse (argumentsValues st) (name st)
                                (values st ++ [t]) (expectedArguments st))
        by (unfold parseToken; rewrite Ht, Hroom; reflexivity).
      assert (Hr : room st = 1) by (unfold room; rewrite Hroom; reflexivity).
      rewrite Hstep, Hr. clear Hstep Hr.
      set (st1 := mkParse _ _ _ _).
      assert (Hr1 : room st1 = 0).
      { unfold room, st1. cbn [values]. rewrite length_app. cbn [length].
        replace (length (values st) + 1 =? 0)%nat with false
          by (symmetry; apply Nat.eqb_neq; lia).
        rewrite andb_false_r. reflexivity. }
      destruct (IH st1 Hexp) as (Hn & Hv & Hd).
      rewrite Hr1 in Hv, Hd. rewrite Hn, Hv, Hd.
      unfold st1. cbn [name values argumentsValues].
      rewrite take_0, drop_0, app_nil_r.
      change (take 1 (t :: tokens)) with [t].
      change (drop 1 (t :: tokens)) with tokens. auto.
    + (* the token goes to the unnamed argument *)
      pose proof (subscript_value (expectedArguments st) (name st)) as Hsv.
      pose proof (subscript_contains (expectedArguments st) (name st)) as Hsc.
      pose proof (subscript_valuesOf (expectedArguments st) (name st)
                                     (name st)) as Hsk.
      pose proof (subscript_value (insertParsed st) EmptyString) as Hu.
      rewrite valuesOf_insertParsed_unnamed in Hu.
      assert (Hstep : parseToken st t
                = mkParse (<[EmptyString :=
                               (valuesOf (argumentsValues st) EmptyString
                                ++ [t])%list]>
                             (subscript (insertParsed st) EmptyString).1)
                          (name st) (values st)
                          (subscript (expectedArguments st) (name st)).1).
      { unfold parseToken. rewrite Ht, Hroom.
        destruct (subscript (expectedArguments st) (name st)) as [e v].
        cbn [fst snd] in *. rewrite Hexp in Hsv. subst v.
        replace (length (values st) <? length [])%nat with false
          by (symmetry; apply Nat.ltb_ge; cbn; lia).
        destruct (subscript (insertParsed st) EmptyString) as [a unnamed].
        cbn [fst snd] in *. subst unnamed. reflexivity. }
      assert (Hr : room st = 0) by (unfold room; rewrite Hroom; reflexivity).
      rewrite Hstep, Hr. clear Hstep Hr.
      set (st1 := mkParse _ _ _ _).
      assert (Hr1 : room st1 = 0).
      { unfold room, st1. cbn [expectedArguments name]. rewrite Hsc.
        reflexivity. }
      assert (Hexp1 : valuesOf (expectedArguments st1) (name st1) = []).
      { unfold st1. cbn [expectedArguments name]. rewrite Hsk. exact Hexp. }
      destruct (IH st1 Hexp1) as (Hn & Hv & Hd).
      rewrite Hr1 in Hv, Hd. rewrite Hn, Hv, Hd.
      unfold st1. cbn [name values argumentsValues take drop].
      unfold valuesOf at 1. rewrite lookup_insert_eq. cbn [default].
      unfold id. rewrite take_0, drop_0, <- app_assoc. auto.
Qed.

Lemma parseLoop_app (expected : QHash) (before after : list string) :
  parseLoop expected (before ++ after)
  = fold_left parseToken after (parseLoop expected before).
Proof. unfold parseLoop. apply fold_left_app. Qed.

(** ** C4 *)

(** The loop inserts a named argument only when a later token makes it do
    so; a token with a leading dash at the very end inserts its predecessor
    and is itself left out of the result. *)
Lemma parseRawArguments_last_named_left_out
      (expected : QHash) (binary : string) (tokens : list string)
      (last : string) :
  startsWith dash last = true →
  parseRawArguments (binary :: tokens ++ [last]) expected
  = Some (insertParsed (parseLoop expected tokens)).
Proof.
  intros Hd. cbn [parseRawArguments]. rewrite parseLoop_app.
  cbn [fold_left]. rewrite parseToken_dash by exact Hd. reflexivity.
Qed.

(** Among the named arguments that are inserted, the later one replaces the
    earlier: a token with a leading dash that is directly followed by the
    final token with a leading dash ends up in the table with its own
    values, whatever was stored under its name before. *)
Lemma parseRawArguments_inserted_replaces
      (expected : QHash) (binary : string) (tokens : list string)
      (named last : string) :
  startsWith dash named = true →
  startsWith dash last = true →
  isEmpty (argumentName named) = false →
  ∃ table,
    parseRawArguments (binary :: tokens ++ [named] ++ [last]) expected
    = Some table
    ∧ table !! argumentName named = Some (initialValues named).
Proof.
  intros Hnamed Hlast Hnonempty. eexists. split.
  - rewrite app_assoc.
    apply parseRawArguments_last_named_left_out. exact Hlast.
  - rewrite parseLoop_app. cbn [fold_left].
    rewrite parseToken_dash by exact Hnamed.
    unfold insertParsed at 1. cbn [name values argumentsValues].
    rewrite Hnonempty. cbn [negb]. apply lookup_insert_eq.
Qed.

(** C4 (the code at the failing input): for the command line
    [app --a=1 --a=2] the table holds the values of the first occurrence of
    [a], not of the last, whose values ["2"] never reach the table. *)
Theorem parseRawArguments_duplicate_keeps_first :
  parseRawArguments ["app"; "--a=1"; "--a=2"] ∅ = Some {[ "a" := ["1"] ]}
  ∧ argumentName "--a=2" = "a"
  ∧ initialValues "--a=2" = ["2"].
Proof. split; [vm_compute; reflexivity|split; reflexivity]. Qed.

(** ** C5 *)

(** C5 (the code at the failing input): the token [--a--b=c] is read as
    the argument [a-b], not [a--b]: dashes inside the token are dropped
    along with the prepended ones.  The [=]-split is as claimed: the piece
    before the first [=] is the name, the pieces after it the values. *)
Theorem parseToken_drops_inner_dashes :
  stripDashes "--a--b=c" = "a-b=c"
  ∧ name (parseToken (initialParse ∅) "--a--b=c") = "a-b"
  ∧ values (parseToken (initialParse ∅) "--a--b=c") = ["c"].
Proof. repeat split; reflexivity. Qed.

(** ** C9 *)

(** C9: take a token with a leading dash whose argument name is not in the
    expected-arguments table, followed by tokens without a leading dash.
    The argument gets at most one of them as a value, namely the first
    [room] of them with [room] being 0 or 1; all the others are appended, in
    order, to the values of the unnamed argument ("").  The next token with
    a leading dash stores the argument with exactly these values in the
    table. *)
Theorem unexpected_argument_takes_at_most_one_value
        (expected : QHash) (before : list string) (named : string)
        (plain : list string) :
  startsWith dash named = true →
  expected !! argumentName named = None →
  Forall (fun t => startsWith dash t = false) plain →
  let st := parseLoop expected (before ++ [named]) in
  let st' := parseLoop expected (before ++ [named] ++ plain) in
  name st = argumentName named
  ∧ values st = initialValues named
  ∧ (room st ≤ 1)%nat
  ∧ name st' = argumentName named
  ∧ values st' = (initialValues named ++ take (room st) plain)%list
  ∧ valuesOf (argumentsValues st') ""
    = (valuesOf (argumentsValues st) "" ++ drop (room st) plain)%list
  ∧ ∀ next,
      startsWith dash next = true →
      isEmpty (argumentName named) = false →
      argumentsValues
        (parseLoop expected (before ++ [named] ++ plain ++ [next]))
      !! argumentName named
      = Some (initialValues named ++ take (room st) plain)%list.
Proof.
  intros Hd Hnot Hplain st st'.
  assert (Hst : st = mkParse (insertParsed (parseLoop expected before))
                             (argumentName named) (initialValues named)
                             (expectedArguments (parseLoop expected before))).
  { unfold st. rewrite parseLoop_app. cbn [fold_left].
    apply parseToken_dash. exact Hd. }
  assert (Hname : name st = argumentName named) by (rewrite Hst; reflexivity).
  assert (Hvalues : values st = initialValues named)
    by (rewrite Hst; reflexivity).
  assert (Hexp : valuesOf (expectedArguments st) (name st) = []).
  { rewrite Hname. unfold st, parseLoop. rewrite fold_parseToken_expected.
    cbn [initialParse expectedArguments].
    unfold valuesOf. rewrite Hnot. reflexivity. }
  assert (Hst' : st' = fold_left parseToken plain st).
  { unfold st', st. rewrite app_assoc. apply parseLoop_app. }
  destruct (fold_parseToken_plain plain Hplain st Hexp) as (Hn & Hv & Hu).
  rewrite <- Hst' in Hn, Hv, Hu. rewrite Hname in Hn. rewrite Hvalues in Hv.
  split; [exact Hname|]. split; [exact Hvalues|].
  split; [apply room_le_1|].
  split; [exact Hn|]. split; [exact Hv|]. split; [exact Hu|].
  intros next Hnext Hnonempty.
  replace (before ++ [named] ++ plain ++ [next])%list
    with ((before ++ [named] ++ plain) ++ [next])%list
    by (rewrite <- !app_assoc; reflexivity).
  rewrite parseLoop_app. fold st'. cbn [fold_left].
  rewrite parseToken_dash by exact Hnext. cbn [argumentsValues].
  unfold insertParsed. rewrite Hn, Hv, Hnonempty. cbn [negb].
  apply lookup_insert_eq.
Qed.

Lemma unexpected_argument_takes_at_most_one_value_witness :
  startsWith dash "--foo" = true
  ∧ (∅ : QHash) !! argumentName "--foo" = None
  ∧ Forall (fun t => startsWith dash t = false) ["a"; "b"; "c"]
  ∧ values (parseLoop ∅ (["--v"] ++ ["--foo"] ++ ["a"; "b"; "c"]))
    = (initialValues "--foo"
       ++ take (room (parseLoop ∅ (["--v"] ++ ["--foo"]))) ["a"; "b"; "c"])%list
  ∧ valuesOf
      (argumentsValues
         (parseLoop ∅ (["--v"] ++ ["--foo"] ++ ["a"; "b"; "c"]))) ""
    = (valuesOf (argumentsValues (parseLoop ∅ (["--v"] ++ ["--foo"]))) ""
       ++ drop (room (parseLoop ∅ (["--v"] ++ ["--foo"]))) ["a"; "b"; "c"])%list.
Proof.
  assert (Hplain : Forall (fun t => startsWith dash t = false)
                          ["a"; "b"; "c"])
    by (repeat constructor).
  assert (Hnot : (∅ : QHash) !! argumentName "--foo" = None)
    by (vm_compute; reflexivity).
  destruct (unexpected_argument_takes_at_most_one_value
              ∅ ["--v"] "--foo" ["a"; "b"; "c"] eq_refl Hnot Hplain)
    as (_ & _ & _ & _ & Hv & Hu & _).
  split; [reflexivity|]. split; [exact Hnot|]. split; [exact Hplain|].
  split; [exact Hv|exact Hu].
Defined.

End ArgumentParser.

(** * Properties of the theme broadcast *)

Section ThemeBroadcast.

Import ItemExtension.

(** ** Induction over the visual tree *)

Lemma QQuickItem_ind (P : QQuickItem → Prop) :
  (∀ a s children, Forall P children → P (Item a s children)) →
  ∀ item, P item.
Proof.
  intros step. fix IH 1. intros [a s children]. apply step.
  induction children as [|c children IHc]; constructor.
  - apply IH.
  - exact IHc.
Qed.

(** ** Lists *)

Lemma map_flat_map {A B C : Type} (f : B → C) (g : A → list B) (l : list A) :
  map f (flat_map g l) = flat_map (fun x => map f (g x)) l.
Proof.
  induction l as [|x l IH]; [reflexivity|].
  cbn [flat_map]. rewrite map_app, IH. reflexivity.
Qed.

Lemma NoDup_flat_map_In {A B : Type} (f : A → list B) (l : list A) (a : A) :
  NoDup (flat_map f l) → In a l → NoDup (f a).
Proof.
  induction l as [|h t IH]; [intros _ []|].
  cbn [flat_map]. intros Hnd [->|Hin].
  - apply NoDup_app in Hnd. apply Hnd.
  - apply NoDup_app in Hnd. apply IH; [apply Hnd|exact Hin].
Qed.

(** In a concatenation without duplicates, an element occurs in the part of
    one item only. *)
Lemma NoDup_flat_map_same {A B : Type} (f : A → list B) (l : list A)
      (a b : A) (x : B) :
  NoDup (flat_map f l) → In a l → In b l → In x (f a) → In x (f b) → a = b.
Proof.
  induction l as [|h t IH]; [intros _ []|].
  cbn [flat_map]. intros Hnd Ha Hb Hxa Hxb.
  apply NoDup_app in Hnd as (_ & Hdisjoint & Hnd).
  assert (Hrest : ∀ c, In c t → In x (f c) → In x (f h) → False).
  { intros c Hc Hxc Hxh. apply (Hdisjoint x).
    - apply list_elem_of_In. exact Hxh.
    - apply list_elem_of_In. apply in_flat_map. exists c. auto. }
  destruct Ha as [->|Ha], Hb as [->|Hb].
  - reflexivity.
  - exfalso. exact (Hrest b Hb Hxb Hxa).
  - exfalso. exact (Hrest a Ha Hxa Hxb).
  - exact (IH Hnd Ha Hb Hxa Hxb).
Qed.

(** ** The tree vocabulary *)

Lemma descendant_trans (a b c : QQuickItem) :
  descendant a b → descendant b c → descendant a c.
Proof.
  induction 1 as [item b Hin|item b b' Hin _ IH]; intros Hbc.
  - exact (descendant_deeper item b c Hin Hbc).
  - exact (descendant_deeper item b c Hin (IH Hbc)).
Qed.

Lemma descendants_descendant (item d : QQuickItem) :
  In d (descendants item) ↔ descendant item d.
Proof.
  split.
  - revert d. induction item as [a s children IH] using QQuickItem_ind.
    intros d Hin. cbn [descendants] in Hin.
    apply in_flat_map in Hin as (c & Hc & Hd).
    rewrite Forall_forall in IH.
    destruct Hd as [->|Hd].
    + apply descendant_child. exact Hc.
    + apply (descendant_deeper _ c); [exact Hc|].
      apply IH; [apply list_elem_of_In; exact Hc|exact Hd].
  - induction 1 as [[a s children] c Hin|[a s children] c d Hin _ IH];
      cbn [descendants childItems] in *; apply in_flat_map; exists c.
    + split; [exact Hin|left; reflexivity].
    + split; [exact Hin|right; exact IH].
Qed.

Lemma themeTargets_themeReach (item d : QQuickItem) :
  In d (themeTargets item) ↔ themeReach item d.
Proof.
  split.
  - revert d. induction item as [a s children IH] using QQuickItem_ind.
    intros d Hin. cbn [themeTargets] in Hin.
    apply in_flat_map in Hin as (c & Hc & Hd).
    rewrite Forall_forall in IH.
    destruct Hd as [->|Hd].
    + apply themeReach_child. exact Hc.
    + destruct (styledItemBase c) eqn:Hs; [destruct Hd|].
      apply (themeReach_deeper _ c); [exact Hc|exact Hs|].
      apply IH; [apply list_elem_of_In; exact Hc|exact Hd].
  - induction 1 as [[a s children] c Hin|[a s children] c d Hin Hs _ IH];
      cbn [themeTargets childItems] in *; apply in_flat_map; exists c.
    + split; [exact Hin|left; reflexivity].
    + split; [exact Hin|right; rewrite Hs; exact IH].
Qed.

Lemma themeReach_descendant (item d : QQuickItem) :
  themeReach item d → descendant item d.
Proof.
  induction 1 as [item c Hin|item c d Hin _ _ IH].
  - exact (descendant_child item c Hin).
  - exact (descendant_deeper item c d Hin IH).
Qed.

Lemma descendants_addresses (a : nat) (s : bool) (children : list QQuickItem) :
  map address (descendants (Item a s children)) = flat_map addresses children.
Proof. cbn [descendants]. rewrite map_flat_map. reflexivity. Qed.

Lemma descendant_address_below (item d : QQuickItem) :
  descendant item d → In (address d) (map address (descendants item)).
Proof. intros H. apply in_map. apply descendants_descendant. exact H. Qed.

(** With distinct objects, nothing below an item has the item's address. *)
Lemma descendant_address_fresh (item d : QQuickItem) :
  NoDup (addresses item) → descendant item d → address d ≠ address item.
Proof.
  unfold addresses. intros Hnd Hd Heq. inversion Hnd as [|x l Hnotin _]; subst.
  apply Hnotin. rewrite <- Heq. apply list_elem_of_In.
  apply descendant_address_below. exact Hd.
Qed.

(** ** What a broadcast delivers *)

(** A loop over the children whose every iteration only delivers events
    delivers the concatenation of what the iterations deliver. *)
Lemma fold_left_delivers
      (body : QGuiApplication → QQuickItem → QGuiApplication)
      (sent : QQuickItem → list (nat * UCThemeUpdateEvent))
      (children : list QQuickItem) :
  Forall (fun c => ∀ app, body app c
                          = mkApp (delivered app ++ sent c) (queued app))
         children →
  ∀ app, fold_left body children app
         = mkApp (delivered app ++ flat_map sent children) (queued app).
Proof.
  induction 1 as [|c children Hc _ IH]; intros app.
  - cbn. rewrite app_nil_r. destruct app; reflexivity.
  - cbn [fold_left flat_map]. rewrite IH, Hc. cbn [delivered queued].
    rewrite <- app_assoc. reflexivity.
Qed.

Lemma dispatch_delivers (receiver : QQuickItem) (event : UCThemeUpdateEvent)
      (app : QGuiApplication) :
  dispatch receiver event app
  = mkApp (delivered app ++ [(address receiver, event)]) (queued app).
Proof. reflexivity. Qed.

Lemma broadcastAscendantUpdate_delivers
      (item : QQuickItem) (ascendantStyled : option nat) :
  ∀ app,
    broadcastAscendantUpdate item ascendantStyled app
    = mkApp (delivered app
             ++ map (fun d => (address d, newStyledItemEvent ascendantStyled))
                    (descendants item))
            (queued app).
Proof.
  induction item as [a s children IH] using QQuickItem_ind. intros app.
  cbn [broadcastAscendantUpdate descendants]. rewrite map_flat_map.
  apply fold_left_delivers.
  eapply Forall_impl; [exact IH|]. clear. intros c IH app.
  rewrite dispatch_delivers. cbn [map].
  destruct c as [a s [|g children]].
  - reflexivity.
  - change (0 <? length (childItems (Item a s (g :: children))))%nat
      with true.
    cbv iota. rewrite IH. cbn [delivered queued].
    rewrite <- app_assoc. reflexivity.
Qed.

Lemma broadcastThemeUpdate_delivers (item : QQuickItem) (theme : option nat) :
  ∀ app,
    broadcastThemeUpdate item theme app
    = mkApp (delivered app
             ++ map (fun d => (address d, newThemeEvent theme))
                    (themeTargets item))
            (queued app).
Proof.
  induction item as [a s children IH] using QQuickItem_ind. intros app.
  cbn [broadcastThemeUpdate themeTargets]. rewrite map_flat_map.
  apply fold_left_delivers.
  eapply Forall_impl; [exact IH|]. clear. intros c IH app.
  rewrite dispatch_delivers. cbn [map].
  destruct c as [a [|] [|g children]]; cbn [styledItemBase].
  - reflexivity.
  - reflexivity.
  - reflexivity.
  - change (0 <? length (childItems (Item a false (g :: children))))%nat
      with true.
    cbn [andb negb styledItemBase]. rewrite IH. cbn [delivered queued].
    rewrite <- app_assoc. reflexivity.
Qed.

(** With distinct objects, nothing below a styled item that lies below
    [item] is among the targets of a theme broadcast from [item]. *)
Lemma themeTargets_skip_below_styled (item : QQuickItem) :
  NoDup (addresses item) →
  ∀ c d,
    descendant item c → styledItemBase c = true → descendant c d →
    ¬ In (address d) (map address (themeTargets item)).
Proof.
  induction item as [a s children IH] using QQuickItem_ind.
  intros Hnd c d Hc Hstyled Hd Hin.
  rewrite Forall_forall in IH.
  assert (Hchildren : NoDup (flat_map addresses children)).
  { unfold addresses in Hnd. rewrite descendants_addresses in Hnd.
    inversion Hnd; assumption. }
  (* the child below which [d] lies *)
  assert (Hbelow : ∃ ch, In ch children ∧ descendant ch d
                         ∧ (ch = c ∨ descendant ch c)).
  { inversion Hc as [c' Hin'|ch c' Hin' Hchc]; subst; cbn [childItems] in *.
    - exists c. auto.
    - exists ch. split; [exact Hin'|].
      split; [exact (descendant_trans _ _ _ Hchc Hd)|right; exact Hchc]. }
  destruct Hbelow as (ch & Hch & Hchd & Hchc).
  (* the child through which the broadcast reaches an item at that address *)
  apply in_map_iff in Hin as (t & Haddr & Ht). cbn [themeTargets] in Ht.
  apply in_flat_map in Ht as (ch' & Hch' & Ht).
  assert (Hsame : ch = ch').
  { apply (NoDup_flat_map_same addresses children ch ch' (address d) Hchildren
                               Hch Hch').
    - right. apply descendant_address_below. exact Hchd.
    - rewrite <- Haddr. destruct Ht as [->|Ht]; [left; reflexivity|right].
      destruct (styledItemBase ch'); [destruct Ht|].
      apply descendant_address_below, themeReach_descendant,
        themeTargets_themeReach. exact Ht. }
  subst ch'.
  assert (Hndch : NoDup (addresses ch))
    by exact (NoDup_flat_map_In addresses children ch Hchildren Hch).
  destruct Ht as [->|Ht].
  - exact (descendant_address_fresh _ d Hndch Hchd (eq_sym Haddr)).
  - destruct (styledItemBase ch) eqn:Hs; [destruct Ht|].
    destruct Hchc as [->|Hchc]; [congruence|].
    apply (IH ch (proj2 (list_elem_of_In _ _) Hch) Hndch c d Hchc Hstyled Hd).
    rewrite <- Haddr. apply in_map. exact Ht.
Qed.

(** ** C7 *)

(** C7: when the parent of the extended item changes, the handler sends a
    theme update event (the ascendant-update kind, carrying no styled item)
    to the items below the extended item, one event per item and parents
    before their children, and to nothing else; with distinct item objects
    every descendant is the receiver of exactly one event.  The events are
    delivered with [sendEvent]: when the handler returns they have all been
    delivered and nothing was added to the event queue. *)
Theorem handleParentChanged_broadcasts_to_descendants
        (m_item : QQuickItem) (newParent : option QQuickItem)
        (app : QGuiApplication) :
  ∃ sent,
    handleParentChanged m_item newParent app
    = mkApp (delivered app ++ sent) (queued app)
    ∧ Forall (fun e => e.2 = newStyledItemEvent None) sent
    ∧ map fst sent = map address (descendants m_item)
    ∧ (∀ d, descendant m_item d → In (address d) (map fst sent))
    ∧ (∀ a, In a (map fst sent) → ∃ d, descendant m_item d ∧ address d = a)
    ∧ (NoDup (addresses m_item) →
       ∀ d, descendant m_item d →
            count_occ Nat.eq_dec (map fst sent) (address d) = 1).
Proof.
  exists (map (fun d => (address d, newStyledItemEvent None))
              (descendants m_item)).
  assert (Hfst : map fst (map (fun d => (address d, newStyledItemEvent None))
                              (descendants m_item))
                 = map address (descendants m_item)).
  { rewrite List.map_map. reflexivity. }
  rewrite Hfst. split; [|split; [|split; [|split; [|split]]]].
  - apply broadcastAscendantUpdate_delivers.
  - apply Forall_forall. intros e He.
    apply list_elem_of_In, in_map_iff in He as (d & <- & _). reflexivity.
  - reflexivity.
  - intros d Hd. apply descendant_address_below. exact Hd.
  - intros a Ha. apply in_map_iff in Ha as (d & <- & Hd).
    exists d. split; [apply descendants_descendant; exact Hd|reflexivity].
  - intros Hnd d Hd.
    assert (Hnd' : List.NoDup (map address (descendants m_item))).
    { apply NoDup_ListNoDup. unfold addresses in Hnd.
      inversion Hnd; assumption. }
    apply (proj1 (NoDup_count_occ' Nat.eq_dec _) Hnd').
    apply descendant_address_below. exact Hd.
Qed.

Lemma handleParentChanged_broadcasts_to_descendants_witness :
  NoDup (addresses samplePage)
  ∧ ∃ sent,
      handleParentChanged samplePage None idle = mkApp sent []
      ∧ map fst sent = [1; 2; 3; 4]
      ∧ count_occ Nat.eq_dec (map fst sent) (address sampleLabel) = 1.
Proof.
  assert (Hnd : NoDup (addresses samplePage))
    by (apply NoDup_ListNoDup; repeat constructor; cbn; intuition lia).
  split; [exact Hnd|].
  destruct (handleParentChanged_broadcasts_to_descendants
              samplePage None idle) as (sent & Hsent & _ & Hfst & _ & _ & Honce).
  exists sent. split; [exact Hsent|]. split; [exact Hfst|].
  apply (Honce Hnd). apply descendants_descendant. cbn. auto.
Defined.

(** ** C10 *)

(** C10: a theme broadcast sends the theme event to every item it can reach
    without passing through a styled item, the styled children included,
    and to nothing else; with distinct item objects it sends nothing to any
    item below a styled item.  An ascendant broadcast sends its event to
    every item below the starting item, whatever lies in between. *)
Theorem broadcastThemeUpdate_stops_below_styled_items
        (item : QQuickItem) (theme ascendantStyled : option nat)
        (app : QGuiApplication) :
  (∃ sent,
     broadcastThemeUpdate item theme app
     = mkApp (delivered app ++ sent) (queued app)
     ∧ (∀ c, themeReach item c → In (address c, newThemeEvent theme) sent)
     ∧ (∀ a, In a (map fst sent) → ∃ c, themeReach item c ∧ address c = a)
     ∧ (NoDup (addresses item) →
        ∀ c d,
          descendant item c → styledItemBase c = true → descendant c d →
          ¬ In (address d) (map fst sent)))
  ∧ (∃ sent,
       broadcastAscendantUpdate item ascendantStyled app
       = mkApp (delivered app ++ sent) (queued app)
       ∧ (∀ d, descendant item d →
               In (address d, newStyledItemEvent ascendantStyled) sent)).
Proof.
  split.
  - exists (map (fun d => (address d, newThemeEvent theme))
                (themeTargets item)).
    split; [apply broadcastThemeUpdate_delivers|]. split; [|split].
    + intros c Hc.
      apply (in_map (fun d => (address d, newThemeEvent theme))).
      apply themeTargets_themeReach. exact Hc.
    + intros a Ha. rewrite List.map_map in Ha. cbn [fst] in Ha.
      apply in_map_iff in Ha as (c & <- & Hc).
      exists c. split; [apply themeTargets_themeReach; exact Hc|reflexivity].
    + intros Hnd c d Hc Hs Hd. rewrite List.map_map. cbn [fst].
      exact (themeTargets_skip_below_styled item Hnd c d Hc Hs Hd).
  - exists (map (fun d => (address d, newStyledItemEvent ascendantStyled))
                (descendants item)).
    split; [apply broadcastAscendantUpdate_delivers|].
    intros d Hd.
    apply (in_map (fun d => (address d, newStyledItemEvent ascendantStyled))).
    apply descendants_descendant. exact Hd.
Qed.

Lemma broadcastThemeUpdate_stops_below_styled_items_witness :
  NoDup (addresses samplePage)
  ∧ receivers (broadcastThemeUpdate samplePage None idle) = [1; 3; 4]
  ∧ receivers (broadcastAscendantUpdate samplePage None idle) = [1; 2; 3; 4]
  ∧ ∃ sent,
      broadcastThemeUpdate samplePage None idle = mkApp sent []
      ∧ In (address sampleButton, newThemeEvent None) sent
      ∧ ¬ In (address sampleLabel) (map fst sent).
Proof.
  assert (Hnd : NoDup (addresses samplePage))
    by (apply NoDup_ListNoDup; repeat constructor; cbn; intuition lia).
  split; [exact Hnd|]. split; [reflexivity|]. split; [reflexivity|].
  destruct (broadcastThemeUpdate_stops_below_styled_items
              samplePage None None idle)
    as ((sent & Hsent & Hreach & _ & Hskip) & _).
  exists sent. split; [exact Hsent|]. split.
  - apply Hreach. apply themeReach_child. cbn. auto.
  - apply (Hskip Hnd sampleButton sampleLabel).
    + apply descendant_child. cbn. auto.
    + reflexivity.
    + apply descendant_child. cbn. auto.
Defined.

End ThemeBroadcast.

(** * Further properties of the bottom edge range *)

Section BottomEdgeRangeFurther.

Import BottomEdge.

(** ** The order of doubles *)

Lemma Prim2SF_minus_one :
  Prim2SF (-1)%float = S754_finite true 4503599627370496 (-52).
Proof. reflexivity. Qed.

Lemma SFleb_trans (x y z : spec_float) :
  SFleb x y = true → SFleb y z = true → SFleb x z = true.
Proof.
  unfold SFleb.
  destruct x as [[]|[]| |[] mx ex], y as [[]|[]| |[] my ey],
           z as [[]|[]| |[] mz ez];
    cbn [SFcompare]; intros Hxy Hyz;
    try reflexivity; try discriminate Hxy; try discriminate Hyz;
    change (Pos.compare_cont Eq) with Pos.compare in *;
    revert Hxy Hyz;
    destruct (Z.compare_spec ex ey), (Z.compare_spec ey ez),
             (Z.compare_spec ex ez);
    try lia; try discriminate; try reflexivity; subst;
    destruct (Pos.compare_spec mx my), (Pos.compare_spec my mz),
             (Pos.compare_spec mx mz);
    cbn; try lia; try discriminate; try reflexivity.
Qed.

Lemma SFleb_SFltb (x y : spec_float) :
  SFleb x y = true → SFltb y x = false.
Proof.
  unfold SFleb, SFltb.
  destruct x as [[]|[]| |[] mx ex], y as [[]|[]| |[] my ey];
    cbn [SFcompare]; intros Hxy;
    try reflexivity; try discriminate Hxy;
    change (Pos.compare_cont Eq) with Pos.compare in *;
    revert Hxy;
    destruct (Z.compare_spec ex ey), (Z.compare_spec ey ex);
    try lia; try discriminate; try reflexivity; subst;
    destruct (Pos.compare_spec mx my), (Pos.compare_spec my mx);
    cbn; try lia; try discriminate; try reflexivity.
Qed.

Lemma qLe_trans (x y z : qreal) :
  qLe x y = true → qLe y z = true → qLe x z = true.
Proof. unfold qLe. rewrite !leb_spec. apply SFleb_trans. Qed.

Lemma qLe_not_qLt (x y : qreal) : qLe x y = true → qLt y x = false.
Proof. unfold qLe, qLt. rewrite leb_spec, ltb_spec. apply SFleb_SFltb. Qed.

Lemma qLt_not_qLe (x y : qreal) : qLt x y = true → qLe y x = false.
Proof.
  intros Hlt. destruct (qLe y x) eqn:Hle; [|reflexivity].
  apply qLe_not_qLt in Hle. congruence.
Qed.

(** A NaN is the only double that differs from itself, and it compares
    false with everything. *)
Lemma is_nan_Prim2SF (x : qreal) : is_nan x = true → Prim2SF x = S754_nan.
Proof.
  unfold is_nan. rewrite FloatAxioms.eqb_spec. unfold SFeqb.
  destruct (Prim2SF x) as [[]|[]| |[] m e]; cbn [SFcompare negb];
    try discriminate; try reflexivity;
    rewrite Z.compare_refl, Pos.compare_cont_refl; discriminate.
Qed.

Lemma qLe_nan (x y : qreal) :
  is_nan x = true ∨ is_nan y = true → qLe x y = false.
Proof.
  unfold qLe. rewrite leb_spec. unfold SFleb.
  intros [H|H]; apply is_nan_Prim2SF in H; rewrite H.
  - reflexivity.
  - destruct (Prim2SF x) as [[]|[]| |[] m e]; reflexivity.
Qed.

(** ** Membership *)

(** A range that has just been constructed contains no drag ratio: its to
    is still -1.0, below its from 0.0. *)
Theorem new_range_contains_no_ratio
        (parent : option UCBottomEdge) (dragRatio : qreal) :
  dragInSection (newUCBottomEdgeRange parent) dragRatio = false.
Proof.
  change (dragInSection (newUCBottomEdgeRange parent) dragRatio)
    with (true && qLe 0%float dragRatio && qLe dragRatio (-1)%float).
  cbn [andb]. destruct (qLe 0%float dragRatio) eqn:Hfrom; [|reflexivity].
  cbn [andb]. apply qLt_not_qLe.
  destruct (qLt (-1)%float dragRatio) eqn:Hlt; [reflexivity|].
  revert Hfrom Hlt. unfold qLe, qLt. rewrite leb_spec, ltb_spec.
  rewrite Prim2SF_zero, Prim2SF_minus_one. unfold SFleb, SFltb.
  destruct (Prim2SF dragRatio) as [[]|[]| |[] m e]; cbn [SFcompare];
    intros; try discriminate; try reflexivity.
Qed.

(** A drag ratio inside a section lies between bounds that are in order:
    from ≤ to holds, so a range whose to is below its from contains
    nothing. *)
Theorem dragInSection_bounds_in_order
        (r : UCBottomEdgeRange) (dragRatio : qreal) :
  dragInSection r dragRatio = true →
  qLe (m_from r) (m_to r) = true ∧ qLt (m_to r) (m_from r) = false.
Proof.
  unfold dragInSection.
  change (qGe dragRatio (m_from r)) with (qLe (m_from r) dragRatio).
  rewrite !andb_true_iff. intros [[_ Hf] Ht].
  assert (Hle : qLe (m_from r) (m_to r) = true)
    by exact (qLe_trans _ _ _ Hf Ht).
  split; [exact Hle|exact (qLe_not_qLt _ _ Hle)].
Qed.

Lemma dragInSection_bounds_in_order_witness :
  dragInSection sampleRange 0.25%float = true
  ∧ qLe (m_from sampleRange) (m_to sampleRange) = true.
Proof.
  split; [reflexivity|].
  exact (proj1 (dragInSection_bounds_in_order sampleRange 0.25%float
                  eq_refl)).
Defined.

(** A NaN is in no section, and a section with a NaN bound contains
    nothing. *)
Theorem dragInSection_nan (r : UCBottomEdgeRange) (dragRatio : qreal) :
  is_nan dragRatio = true ∨ is_nan (m_from r) = true
  ∨ is_nan (m_to r) = true →
  dragInSection r dragRatio = false.
Proof.
  unfold dragInSection.
  change (qGe dragRatio (m_from r)) with (qLe (m_from r) dragRatio).
  intros [H|[H|H]].
  - rewrite (qLe_nan (m_from r) dragRatio) by (right; exact H).
    apply andb_false_iff. left. apply andb_false_r.
  - rewrite (qLe_nan (m_from r) dragRatio) by (left; exact H).
    apply andb_false_iff. left. apply andb_false_r.
  - rewrite (qLe_nan dragRatio (m_to r)) by (right; exact H).
    apply andb_false_r.
Qed.

Lemma dragInSection_nan_witness :
  is_nan nan = true ∧ dragInSection sampleRange nan = false.
Proof.
  split; [reflexivity|].
  apply dragInSection_nan. left. reflexivity.
Defined.

(** ** Attaching *)

Lemma attachToBottomEdge_set (bottomEdge : UCBottomEdge)
      (r : UCBottomEdgeRange) :
  qLe (m_to r) 0%float = false →
  attachToBottomEdge bottomEdge r = set_bottomEdge (Some bottomEdge) r.
Proof.
  intros Hset. unfold attachToBottomEdge.
  change (m_to (set_bottomEdge (Some bottomEdge) r)) with (m_to r).
  rewrite Hset. reflexivity.
Qed.

(** A range whose to was set above zero keeps it when it is attached: only
    the BottomEdge pointer changes and toChanged is not emitted. *)
Theorem attachToBottomEdge_keeps_positive_to
        (bottomEdge : UCBottomEdge) (r : UCBottomEdgeRange) :
  qLt 0%float (m_to r) = true →
  attachToBottomEdge bottomEdge r = set_bottomEdge (Some bottomEdge) r.
Proof.
  intros Hpos. apply attachToBottomEdge_set, qLt_not_qLe. exact Hpos.
Qed.

Lemma attachToBottomEdge_keeps_positive_to_witness :
  qLt 0%float (m_to sampleRange) = true
  ∧ m_to (attachToBottomEdge halfEdge sampleRange) = 0.5%float
  ∧ trace (attachToBottomEdge halfEdge sampleRange) = [].
Proof.
  split; [reflexivity|].
  rewrite (attachToBottomEdge_keeps_positive_to halfEdge sampleRange eq_refl).
  split; reflexivity.
Defined.

(** The to of a new range is taken from the first BottomEdge it is attached
    to, when that commitPoint is above zero: attaching it to another
    BottomEdge afterwards moves the pointer but neither changes to nor emits
    toChanged a second time. *)
Theorem attachToBottomEdge_again
        (parent : option UCBottomEdge) (first second : UCBottomEdge) :
  qLt 0%float (commitPoint first) = true →
  let r := attachToBottomEdge second
             (attachToBottomEdge first (newUCBottomEdgeRange parent)) in
  m_bottomEdge r = Some second
  ∧ m_to r = commitPoint first
  ∧ trace r = [Emit toChanged].
Proof.
  intros Hpos r. subst r.
  rewrite (attachToBottomEdge_set second)
    by (apply qLt_not_qLe; exact Hpos).
  repeat split; reflexivity.
Qed.

Lemma attachToBottomEdge_again_witness :
  qLt 0%float (commitPoint sampleEdge) = true
  ∧ m_to (attachToBottomEdge halfEdge
            (attachToBottomEdge sampleEdge (newUCBottomEdgeRange None)))
    = 1%float.
Proof.
  split; [reflexivity|].
  exact (proj1 (proj2 (attachToBottomEdge_again None sampleEdge halfEdge
                         eq_refl))).
Defined.

(** ** Entering and leaving *)

Lemma writeProperty_untouched (property : string) (s : PropertyState)
      (be : UCBottomEdge) :
  calls (writeProperty property s be) = calls be
  ∧ commitPoint (writeProperty property s be) = commitPoint be.
Proof.
  unfold writeProperty.
  destruct (String.eqb property "content");
    [|destruct (String.eqb property "contentComponent")];
    split; reflexivity.
Qed.

Lemma deletePropertyChange_untouched (change : PropertyChange)
      (be : UCBottomEdge) :
  calls (deletePropertyChange change be) = calls be
  ∧ commitPoint (deletePropertyChange change be) = commitPoint be.
Proof.
  unfold deletePropertyChange. destruct (pc_backup change).
  - apply writeProperty_untouched.
  - split; reflexivity.
Qed.

(** Entering or leaving a section never commits the BottomEdge, never moves
    its panel and never changes its commitPoint, whatever backups the range
    holds. *)
Theorem section_changes_leave_calls_alone
        (r : UCBottomEdgeRange) (be : UCBottomEdge) :
  m_bottomEdge r = Some be →
  (∃ be', m_bottomEdge (enterSection r) = Some be'
          ∧ calls be' = calls be ∧ commitPoint be' = commitPoint be)
  ∧ (∃ be', m_bottomEdge (exitSection r) = Some be'
            ∧ calls be' = calls be ∧ commitPoint be' = commitPoint be).
Proof.
  destruct r as [e u c ub cb f t en ct bnd cbnd nm tr], be as [cp co cc cl].
  cbn [m_bottomEdge]. intros ->. split.
  - destruct u as [|text], c as [comp|], bnd as [b|], cbnd as [b'|];
      eexists; repeat split; reflexivity.
  - destruct cb as [cchange|], ub as [uchange|];
      cbn -[deletePropertyChange]; eexists; (split; [reflexivity|]);
      rewrite ?(proj1 (deletePropertyChange_untouched _ _)),
              ?(proj2 (deletePropertyChange_untouched _ _));
      split; reflexivity.
Qed.

Lemma section_changes_leave_calls_alone_witness :
  m_bottomEdge sampleRange = Some sampleEdge
  ∧ ∃ be', m_bottomEdge (enterSection sampleRange) = Some be'
           ∧ calls be' = calls sampleEdge.
Proof.
  split; [reflexivity|].
  destruct (proj1 (section_changes_leave_calls_alone sampleRange sampleEdge
                     eq_refl)) as (be' & Hbe & Hcalls & _).
  exists be'. split; [exact Hbe|exact Hcalls].
Defined.

(** Entering a section and leaving it emits entered and then exited, each
    followed by its debug line, and nothing else. *)
Theorem enter_exit_trace (r : UCBottomEdgeRange) :
  trace (exitSection (enterSection r))
  = (trace r ++ [Emit entered; Debug "SECTION ENTERED" (objectName r);
                 Emit exited; Debug "SECTION EXITED" (objectName r)])%list.
Proof.
  destruct r as [e u c ub cb f t en ct bnd cbnd nm tr].
  destruct u as [|text], c as [comp|], bnd as [b|], cbnd as [b'|],
           ub as [uchange|], cb as [cchange|];
    cbn -[deletePropertyChange]; rewrite <- !app_assoc; reflexivity.
Qed.

(** Leaving a section twice is the same for the BottomEdge as leaving it
    once, and leaving a section the drag is not in leaves the BottomEdge as
    it is. *)
Theorem exitSection_again (r : UCBottomEdgeRange) :
  m_bottomEdge (exitSection (exitSection r)) = m_bottomEdge (exitSection r)
  ∧ (outsideSection r → m_bottomEdge (exitSection r) = m_bottomEdge r).
Proof.
  destruct r as [e u c ub cb f t en ct bnd cbnd nm tr]. split.
  - destruct cb as [cchange|], ub as [uchange|]; reflexivity.
  - unfold outsideSection. cbn [m_urlBackup m_componentBackup].
    intros [-> ->]. reflexivity.
Qed.

Lemma exitSection_again_witness :
  outsideSection sampleRange
  ∧ m_bottomEdge (exitSection sampleRange) = m_bottomEdge sampleRange.
Proof.
  assert (Hout : outsideSection sampleRange) by (split; reflexivity).
  split; [exact Hout|].
  exact (proj2 (exitSection_again sampleRange) Hout).
Defined.



End BottomEdgeRangeFurther.

(** * Further properties of the argument parser *)

Section ArgumentParserFurther.

Import Arguments.

(** ** Splitting and joining *)

Lemma freeOf_empty (sep : ascii) : freeOf sep EmptyString.
Proof. reflexivity. Qed.

Lemma freeOf_String (sep c : ascii) (s : string) :
  freeOf sep (String c s) ↔ Ascii.eqb c sep = false ∧ freeOf sep s.
Proof.
  unfold freeOf. cbn [split].
  pose proof (split_nonempty sep s) as Hne.
  destruct (Ascii.eqb c sep).
  - split; [|intros [H _]; discriminate H].
    intros H. destruct (split sep s); [contradiction|discriminate H].
  - destruct (split sep s) as [|piece pieces]; [contradiction|].
    split.
    + intros H. injection H as -> ->. split; reflexivity.
    + intros [_ H]. injection H as -> ->. reflexivity.
Qed.

(** No piece of a split contains the separator. *)
Lemma split_pieces_free (sep : ascii) (s : string) :
  Forall (freeOf sep) (split sep s).
Proof.
  induction s as [|c s IH]; [repeat constructor|].
  cbn [split]. destruct (Ascii.eqb c sep) eqn:Hc.
  - constructor; [apply freeOf_empty|exact IH].
  - destruct (split sep s) as [|piece pieces]; [repeat constructor|].
    + apply freeOf_String. split; [exact Hc|apply freeOf_empty].
    + inversion IH as [|? ? Hpiece Hpieces]; subst.
      constructor; [|exact Hpieces].
      apply freeOf_String. split; [exact Hc|exact Hpiece].
Qed.

Lemma split_append_separator (sep : ascii) (piece rest : string) :
  freeOf sep piece →
  split sep (piece ++ String sep rest) = piece :: split sep rest.
Proof.
  induction piece as [|c piece IH]; intros Hfree.
  - change (EmptyString ++ String sep rest)%string with (String sep rest).
    cbn [split]. rewrite Ascii.eqb_refl. reflexivity.
  - apply freeOf_String in Hfree as [Hc Hfree].
    change (String c piece ++ String sep rest)%string
      with (String c (piece ++ String sep rest)).
    cbn [split]. rewrite Hc, (IH Hfree). reflexivity.
Qed.

(** Splitting what was joined from separator-free pieces gives the pieces
    back. *)
Lemma split_join (sep : ascii) (pieces : list string) :
  pieces ≠ [] → Forall (freeOf sep) pieces →
  split sep (join sep pieces) = pieces.
Proof.
  induction pieces as [|piece pieces IH]; [contradiction|].
  intros _ Hfree. inversion Hfree as [|? ? Hpiece Hpieces]; subst.
  destruct pieces as [|next pieces]; [exact Hpiece|].
  rewrite join_cons_nonempty by discriminate.
  change (String sep EmptyString ++ join sep (next :: pieces))%string
    with (String sep (join sep (next :: pieces))).
  rewrite split_append_separator by exact Hpiece.
  rewrite IH; [reflexivity|discriminate|exact Hpieces].
Qed.

(** ** Stripped tokens *)

Lemma splitSkipEmptyParts_pieces (sep : ascii) (s : string) :
  Forall (fun piece => freeOf sep piece ∧ isEmpty piece = false)
         (splitSkipEmptyParts sep s).
Proof.
  unfold splitSkipEmptyParts. apply Forall_forall. intros piece Hin.
  apply list_elem_of_In, filter_In in Hin as [Hin Hne]. split.
  - pose proof (split_pieces_free sep s) as H. rewrite Forall_forall in H.
    apply H, list_elem_of_In. exact Hin.
  - destruct (isEmpty piece); [discriminate Hne|reflexivity].
Qed.

Lemma stripDashes_no_leading_dash (rawArgument : string) :
  startsWith dash (stripDashes rawArgument) = false.
Proof.
  unfold stripDashes.
  pose proof (splitSkipEmptyParts_pieces dash rawArgument) as Hpieces.
  destruct (splitSkipEmptyParts dash rawArgument) as [|piece pieces];
    [reflexivity|].
  inversion Hpieces as [|? ? [Hfree Hne] _]; subst.
  destruct piece as [|c piece]; [discriminate Hne|].
  apply freeOf_String in Hfree as [Hc _].
  rewrite join_cons_char. exact Hc.
Qed.

(** Whatever the token, what [stripDashes] returns does not start with a
    dash, and stripping it again changes nothing. *)
Theorem stripDashes_normal (rawArgument : string) :
  startsWith dash (stripDashes rawArgument) = false
  ∧ stripDashes (stripDashes rawArgument) = stripDashes rawArgument.
Proof.
  split; [apply stripDashes_no_leading_dash|].
  unfold stripDashes at 2 3.
  pose proof (splitSkipEmptyParts_pieces dash rawArgument) as Hpieces.
  destruct (splitSkipEmptyParts dash rawArgument) as [|piece pieces] eqn:Hs.
  - reflexivity.
  - idtac.
    + unfold stripDashes, splitSkipEmptyParts.
      rewrite split_join.
      * rewrite forallb_filter_id; [reflexivity|].
        apply forallb_forall. intros p Hp.
        rewrite Forall_forall in Hpieces.
        destruct (Hpieces p (proj2 (list_elem_of_In _ _) Hp)) as [_ Hne].
        rewrite Hne. reflexivity.
      * discriminate.
      * eapply Forall_impl; [exact Hpieces|]. intros p [Hp _]. exact Hp.
Qed.

Lemma startsWith_hd_split (c sep : ascii) (s : string) :
  startsWith c s = false →
  startsWith c (hd EmptyString (split sep s)) = false.
Proof.
  destruct s as [|c' s]; [reflexivity|].
  cbn [split startsWith]. intros Hc.
  destruct (Ascii.eqb c' sep); [reflexivity|].
  destruct (split sep s); exact Hc.
Qed.

(** The name and the initial values read from a token contain no [=], the
    name does not start with a dash, and joined with [=] they are the
    stripped token again: nothing of it is lost. *)
Theorem argumentName_initialValues (rawArgument : string) :
  join equals (argumentName rawArgument :: initialValues rawArgument)
  = stripDashes rawArgument
  ∧ Forall (freeOf equals)
           (argumentName rawArgument :: initialValues rawArgument)
  ∧ startsWith dash (argumentName rawArgument) = false.
Proof.
  unfold argumentName, initialValues.
  pose proof (split_nonempty equals (stripDashes rawArgument)) as Hne.
  pose proof (split_pieces_free equals (stripDashes rawArgument)) as Hfree.
  pose proof (join_split equals (stripDashes rawArgument)) as Hjoin.
  split; [|split].
  - destruct (split equals (stripDashes rawArgument)); [contradiction|].
    exact Hjoin.
  - destruct (split equals (stripDashes rawArgument)); [contradiction|].
    exact Hfree.
  - apply startsWith_hd_split. apply stripDashes_no_leading_dash.
Qed.

(** When the text after the prepended dashes has no leading, trailing or
    doubled dash, stripping removes exactly the prepended dashes. *)
Lemma stripDashes_prepended_witness :
  Forall (fun piece => isEmpty piece = false) (split dash "log-level=3")
  ∧ stripDashes (dashes 2 "log-level=3") = "log-level=3".
Proof.
  assert (H : Forall (fun piece => isEmpty piece = false)
                     (split dash "log-level=3"))
    by (repeat constructor).
  split; [exact H|]. exact (stripDashes_prepended 2 "log-level=3" H).
Defined.

(** ** Which names get into the table *)

Lemma namedBy_more (seen more : list string) (key : string) :
  namedBy seen key → namedBy (seen ++ more) key.
Proof.
  intros [->|(t & Hin & Hd & ->)]; [left; reflexivity|right].
  exists t. split; [apply in_or_app; left; exact Hin|]. auto.
Qed.

Lemma insertParsed_keys (st : ParseState) (key : string) :
  is_Some (insertParsed st !! key) →
  is_Some (argumentsValues st !! key) ∨ key = name st.
Proof.
  unfold insertParsed. destruct (negb (isEmpty (name st))); [|auto].
  rewrite lookup_insert_is_Some. intros [->|[_ H]]; auto.
Qed.

Lemma subscript_keys (h : QHash) (key other : string) :
  is_Some ((subscript h key).1 !! other) → other = key ∨ is_Some (h !! other).
Proof.
  unfold subscript. destruct (h !! key); cbn [fst]; [auto|].
  rewrite lookup_insert_is_Some. intros [->|[_ H]]; auto.
Qed.

Lemma parseToken_keys (seen : list string) (st : ParseState) (t : string) :
  (∀ key, is_Some (argumentsValues st !! key) → namedBy seen key) →
  namedBy seen (name st) →
  (∀ key, is_Some (argumentsValues (parseToken st t) !! key) →
          namedBy (seen ++ [t]) key)
  ∧ namedBy (seen ++ [t]) (name (parseToken st t)).
Proof.
  intros Htable Hname.
  assert (Hparsed : ∀ key, is_Some (insertParsed st !! key) →
                           namedBy (seen ++ [t]) key).
  { intros key Hkey. apply namedBy_more.
    apply insertParsed_keys in Hkey as [Hkey| ->]; auto. }
  unfold parseToken. destruct (startsWith dash t) eqn:Hdash.
  - cbn [argumentsValues name]. split; [exact Hparsed|].
    right. exists t. split; [apply in_or_app; right; left; reflexivity|].
    split; [exact Hdash|reflexivity].
  - destruct (negb (contains (expectedArguments st) (name st))
              && (length (values st) =? 0)%nat).
    + cbn [argumentsValues name].
      split; [intros key Hkey|]; apply namedBy_more; auto.
    + destruct (subscript (expectedArguments st) (name st)) as [e v].
      destruct (length (values st) <? length v)%nat.
      * cbn [argumentsValues name].
        split; [intros key Hkey|]; apply namedBy_more; auto.
      * pose proof (subscript_keys (insertParsed st) EmptyString) as Hsub.
        destruct (subscript (insertParsed st) EmptyString) as [a unnamed].
        cbn [fst] in Hsub. cbn [argumentsValues name].
        split; [|apply namedBy_more; exact Hname].
        intros key. rewrite lookup_insert_is_Some.
        intros [<-|[_ Hkey]]; [left; reflexivity|].
        apply Hsub in Hkey as [->|Hkey]; [left; reflexivity|auto].
Qed.

Lemma fold_parseToken_keys (tokens : list string) :
  ∀ (seen : list string) (st : ParseState),
    (∀ key, is_Some (argumentsValues st !! key) → namedBy seen key) →
    namedBy seen (name st) →
    (∀ key, is_Some (argumentsValues (fold_left parseToken tokens st) !! key) →
            namedBy (seen ++ tokens) key)
    ∧ namedBy (seen ++ tokens) (name (fold_left parseToken tokens st)).
Proof.
  induction tokens as [|t tokens IH]; intros seen st Htable Hname.
  - rewrite app_nil_r. auto.
  - cbn [fold_left].
    destruct (parseToken_keys seen st t Htable Hname) as [Htable' Hname'].
    replace (seen ++ t :: tokens)%list with ((seen ++ [t]) ++ tokens)%list
      by (rewrite <- app_assoc; reflexivity).
    exact (IH (seen ++ [t])%list (parseToken st t) Htable' Hname').
Qed.

(** Every name in the resulting table is the empty name or the name read
    from a token that starts with a dash: the binary name and the tokens
    without a leading dash never become names. *)
Theorem parseRawArguments_keys
        (expected : QHash) (binary : string) (tokens : list string)
        (table : QHash) (key : string) :
  parseRawArguments (binary :: tokens) expected = Some table →
  is_Some (table !! key) →
  namedBy tokens key.
Proof.
  cbn [parseRawArguments]. intros [= <-] Hkey.
  refine (proj1 (fold_parseToken_keys tokens [] (initialParse expected) _ _)
                key Hkey).
  - intros k Hk. cbn [initialParse argumentsValues] in Hk.
    rewrite lookup_empty in Hk. destruct Hk as [? Hk]. discriminate Hk.
  - left. reflexivity.
Qed.

Lemma parseRawArguments_keys_witness :
  parseRawArguments ["app"; "--a=1"; "x"; "y"; "--b"] ∅
  = Some {[ "a" := ["1"]; "" := ["x"; "y"] ]}
  ∧ namedBy ["--a=1"; "x"; "y"; "--b"] "a".
Proof.
  assert (H : parseRawArguments ["app"; "--a=1"; "x"; "y"; "--b"] ∅
              = Some {[ "a" := ["1"]; "" := ["x"; "y"] ]})
    by (vm_compute; reflexivity).
  split; [exact H|].
  apply (parseRawArguments_keys ∅ "app" ["--a=1"; "x"; "y"; "--b"] _ "a" H).
  vm_compute. eexists. reflexivity.
Defined.

(** ** Tokens without a leading dash *)

(** A command line of tokens without a leading dash, parsed when the empty
    name is not an expected argument: the first token is kept back as the
    one value of the still unnamed pending argument and never reaches the
    table; the table holds the other tokens, in order, under the empty name
    and nothing else. *)
Theorem parseRawArguments_positional_only
        (expected : QHash) (binary : string) (tokens : list string) :
  expected !! EmptyString = None →
  Forall (fun t => startsWith dash t = false) tokens →
  ∃ table,
    parseRawArguments (binary :: tokens) expected = Some table
    ∧ valuesOf table EmptyString = drop 1 tokens
    ∧ ∀ key, key ≠ EmptyString → table !! key = None.
Proof.
  intros Hnot Hplain. eexists. split; [reflexivity|].
  assert (Hexp : valuesOf (expectedArguments (initialParse expected))
                          (name (initialParse expected)) = []).
  { cbn [initialParse expectedArguments name]. unfold valuesOf.
    rewrite Hnot. reflexivity. }
  assert (Hroom : room (initialParse expected) = 1).
  { unfold room, contains. cbn [initialParse expectedArguments name values].
    rewrite Hnot. reflexivity. }
  destruct (fold_parseToken_plain tokens Hplain (initialParse expected) Hexp)
    as (_ & _ & Hu).
  rewrite Hroom in Hu. split; [exact Hu|].
  intros key Hkey.
  destruct (argumentsValues (parseLoop expected tokens) !! key) eqn:Hlook;
    [|reflexivity].
  exfalso.
  assert (Hnamed : namedBy tokens key).
  { refine (proj1 (fold_parseToken_keys tokens [] (initialParse expected)
                      _ _) key _).
    - intros k Hk. cbn [initialParse argumentsValues] in Hk.
      rewrite lookup_empty in Hk. destruct Hk as [? Hk]. discriminate Hk.
    - left. reflexivity.
    - fold (parseLoop expected tokens). rewrite Hlook. eexists. reflexivity. }
  destruct Hnamed as [->|(t & Hin & Hd & _)]; [contradiction|].
  rewrite Forall_forall in Hplain.
  rewrite (Hplain t (proj2 (list_elem_of_In _ _) Hin)) in Hd. discriminate Hd.
Qed.

Lemma parseRawArguments_positional_only_witness :
  (∅ : QHash) !! EmptyString = None
  ∧ Forall (fun t => startsWith dash t = false) ["a.txt"; "b.txt"; "c.txt"]
  ∧ ∃ table,
      parseRawArguments ("app" :: ["a.txt"; "b.txt"; "c.txt"]) ∅ = Some table
      ∧ valuesOf table EmptyString = ["b.txt"; "c.txt"].
Proof.
  assert (Hnot : (∅ : QHash) !! EmptyString = None)
    by (vm_compute; reflexivity).
  assert (Hplain : Forall (fun t => startsWith dash t = false)
                          ["a.txt"; "b.txt"; "c.txt"])
    by (repeat constructor).
  split; [exact Hnot|]. split; [exact Hplain|].
  destruct (parseRawArguments_positional_only
              ∅ "app" ["a.txt"; "b.txt"; "c.txt"] Hnot Hplain)
    as (table & Htable & Hvalues & _).
  exists table. split; [exact Htable|exact Hvalues].
Defined.

(** ** Declared arguments *)

Lemma subscript_present (h : QHash) (key : string) (v : list string) :
  h !! key = Some v → subscript h key = (h, v).
Proof. intros H. unfold subscript. rewrite H. reflexivity. Qed.

Lemma subscript_lookup (h : QHash) (key other : string) (v : list string) :
  h !! other = Some v → (subscript h key).1 !! other = Some v.
Proof.
  intros H. unfold subscript. destruct (h !! key) eqn:Hk; [exact H|].
  cbn [fst]. rewrite lookup_insert_ne; [exact H|]. congruence.
Qed.

(** What the caller declared stays in the local copy of the expected
    arguments. *)
Lemma parseToken_expected_lookup (st : ParseState) (t key : string)
      (v : list string) :
  expectedArguments st !! key = Some v →
  expectedArguments (parseToken st t) !! key = Some v.
Proof.
  intros H. unfold parseToken.
  destruct (startsWith dash t); [exact H|].
  destruct (negb (contains (expectedArguments st) (name st))
            && (length (values st) =? 0)%nat); [exact H|].
  pose proof (subscript_lookup (expectedArguments st) (name st) key v H) as Hs.
  destruct (subscript (expectedArguments st) (name st)) as [e w].
  cbn [fst] in Hs.
  destruct (length (values st) <? length w)%nat; [exact Hs|].
  destruct (subscript (insertParsed st) EmptyString). exact Hs.
Qed.

Lemma fold_parseToken_expected_lookup (tokens : list string)
      (st : ParseState) (key : string) (v : list string) :
  expectedArguments st !! key = Some v →
  expectedArguments (fold_left parseToken tokens st) !! key = Some v.
Proof.
  revert st. induction tokens as [|t tokens IH]; intros st H; [exact H|].
  cbn [fold_left]. apply IH. apply parseToken_expected_lookup. exact H.
Qed.

(** A run of tokens without a leading dash, read while the pending
    argument is a declared one. *)
Lemma fold_parseToken_declared (tokens : list string) :
  Forall (fun t => startsWith dash t = false) tokens →
  ∀ (st : ParseState) (valueNames : list string),
    expectedArguments st !! name st = Some valueNames →
    name (fold_left parseToken tokens st) = name st
    ∧ values (fold_left parseToken tokens st)
      = (values st
         ++ take (length valueNames - length (values st)) tokens)%list
    ∧ valuesOf (argumentsValues (fold_left parseToken tokens st)) EmptyString
      = (valuesOf (argumentsValues st) EmptyString
         ++ drop (length valueNames - length (values st)) tokens)%list.
Proof.
  induction 1 as [|t tokens Ht _ IH]; intros st valueNames Hexp.
  - cbn [fold_left]. rewrite take_nil, drop_nil, !app_nil_r. auto.
  - cbn [fold_left].
    assert (Hcontains : contains (expectedArguments st) (name st) = true)
      by (unfold contains; rewrite Hexp; reflexivity).
    destruct (length (values st) <? length valueNames)%nat eqn:Hless.
    + (* one more value for the argument *)
      assert (Hstep : parseToken st t
                      = mkParse (argumentsValues st) (name st)
                                (values st ++ [t]) (expectedArguments st)).
      { unfold parseToken. rewrite Ht, Hcontains. cbn [negb andb].
        rewrite (subscript_present _ _ _ Hexp), Hless. reflexivity. }
      rewrite Hstep. clear Hstep.
      destruct (IH (mkParse (argumentsValues st) (name st) (values st ++ [t])
                            (expectedArguments st)) valueNames Hexp)
        as (Hn & Hv & Hu).
      cbn [name values argumentsValues] in Hn, Hv, Hu.
      rewrite Hn, Hv, Hu. apply Nat.ltb_lt in Hless.
      rewrite length_app. cbn [length].
      replace (length valueNames - length (values st))
        with (S (length valueNames - (length (values st) + 1))) by lia.
      cbn [take drop]. rewrite <- app_assoc. auto.
    + (* the argument is full: the token goes to the unnamed argument *)
      pose proof (subscript_value (insertParsed st) EmptyString) as Hu0.
      rewrite valuesOf_insertParsed_unnamed in Hu0.
      assert (Hstep : parseToken st t
                = mkParse (<[EmptyString :=
                               (valuesOf (argumentsValues st) EmptyString
                                ++ [t])%list]>
                             (subscript (insertParsed st) EmptyString).1)
                          (name st) (values st) (expectedArguments st)).
      { unfold parseToken. rewrite Ht, Hcontains. cbn [negb andb].
        rewrite (subscript_present _ _ _ Hexp), Hless.
        destruct (subscript (insertParsed st) EmptyString) as [a unnamed].
        cbn [fst snd] in *. subst unnamed. reflexivity. }
      rewrite Hstep. clear Hstep.
      set (st1 := mkParse _ _ _ _).
      destruct (IH st1 valueNames Hexp) as (Hn & Hv & Hu).
      unfold st1 in Hn, Hv, Hu. unfold st1.
      cbn [name values argumentsValues] in Hn, Hv, Hu.
      rewrite Hn, Hv, Hu. apply Nat.ltb_ge in Hless.
      replace (length valueNames - length (values st)) with 0 by lia.
      rewrite !take_0, !drop_0.
      unfold valuesOf at 1. rewrite lookup_insert_eq. cbn [default].
      unfold id. rewrite <- app_assoc. auto.
Qed.

Lemma parseLoop_declared
        (expected : QHash) (before : list string) (named : string)
        (valueNames plain : list string) :
  startsWith dash named = true →
  expected !! argumentName named = Some valueNames →
  Forall (fun t => startsWith dash t = false) plain →
  let st := parseLoop expected (before ++ [named]) in
  let st' := parseLoop expected (before ++ [named] ++ plain) in
  let n := length valueNames - length (initialValues named) in
  values st' = (initialValues named ++ take n plain)%list
  ∧ valuesOf (argumentsValues st') ""
    = (valuesOf (argumentsValues st) "" ++ drop n plain)%list
  ∧ ∀ next,
      startsWith dash next = true →
      isEmpty (argumentName named) = false →
      argumentsValues
        (parseLoop expected (before ++ [named] ++ plain ++ [next]))
      !! argumentName named
      = Some (initialValues named ++ take n plain)%list.
Proof.
  intros Hd Hdeclared Hplain st st' n.
  assert (Hst : st = mkParse (insertParsed (parseLoop expected before))
                             (argumentName named) (initialValues named)
                             (expectedArguments (parseLoop expected before))).
  { unfold st. rewrite parseLoop_app. cbn [fold_left].
    apply parseToken_dash. exact Hd. }
  assert (Hname : name st = argumentName named) by (rewrite Hst; reflexivity).
  assert (Hvalues : values st = initialValues named)
    by (rewrite Hst; reflexivity).
  assert (Hexp : expectedArguments st !! name st = Some valueNames).
  { rewrite Hname. unfold st, parseLoop.
    apply fold_parseToken_expected_lookup. exact Hdeclared. }
  assert (Hst' : st' = fold_left parseToken plain st).
  { unfold st', st. rewrite app_assoc. apply parseLoop_app. }
  destruct (fold_parseToken_declared plain Hplain st valueNames Hexp)
    as (Hn & Hv & Hu).
  rewrite <- Hst' in Hn, Hv, Hu. rewrite Hname in Hn.
  rewrite Hvalues in Hv, Hu.
  split; [exact Hv|]. split; [exact Hu|].
  intros next Hnext Hnonempty.
  replace (before ++ [named] ++ plain ++ [next])%list
    with ((before ++ [named] ++ plain) ++ [next])%list
    by (rewrite <- !app_assoc; reflexivity).
  rewrite parseLoop_app. fold st'. cbn [fold_left].
  rewrite parseToken_dash by exact Hnext. cbn [argumentsValues].
  unfold insertParsed. rewrite Hn, Hv, Hnonempty. cbn [negb].
  apply lookup_insert_eq.
Qed.

(** A token with a leading dash whose name is an expected argument takes
    following tokens without a leading dash as values until it has as many
    values as the argument has value names, the values given with [=]
    counted in; the tokens after that are appended, in order, to the values
    of the unnamed argument.  The next token with a leading dash stores the
    argument with these values. *)
Theorem declared_argument_takes_its_values
        (expected : QHash) (before : list string) (named : string)
        (valueNames plain : list string) :
  startsWith dash named = true →
  expected !! argumentName named = Some valueNames →
  Forall (fun t => startsWith dash t = false) plain →
  let st := parseLoop expected (before ++ [named]) in
  let st' := parseLoop expected (before ++ [named] ++ plain) in
  let n := length valueNames - length (initialValues named) in
  values st' = (initialValues named ++ take n plain)%list
  ∧ valuesOf (argumentsValues st') ""
    = (valuesOf (argumentsValues st) "" ++ drop n plain)%list
  ∧ ∀ next,
      startsWith dash next = true →
      isEmpty (argumentName named) = false →
      argumentsValues
        (parseLoop expected (before ++ [named] ++ plain ++ [next]))
      !! argumentName named
      = Some (initialValues named ++ take n plain)%list.
Proof.
  exact (parseLoop_declared expected before named valueNames plain).
Qed.

Lemma declared_argument_takes_its_values_witness :
  startsWith dash "--size" = true
  ∧ ({[ "size" := ["width"; "height"] ]} : QHash) !! argumentName "--size"
    = Some ["width"; "height"]
  ∧ Forall (fun t => startsWith dash t = false) ["640"; "480"; "a.qml"]
  ∧ values (parseLoop {[ "size" := ["width"; "height"] ]}
                      ([] ++ ["--size"] ++ ["640"; "480"; "a.qml"]))
    = ["640"; "480"]
  ∧ valuesOf
      (argumentsValues
         (parseLoop {[ "size" := ["width"; "height"] ]}
                    ([] ++ ["--size"] ++ ["640"; "480"; "a.qml"]))) ""
    = ["a.qml"].
Proof.
  assert (Hdeclared : ({[ "size" := ["width"; "height"] ]} : QHash)
                      !! argumentName "--size" = Some ["width"; "height"])
    by (vm_compute; reflexivity).
  assert (Hplain : Forall (fun t => startsWith dash t = false)
                          ["640"; "480"; "a.qml"])
    by (repeat constructor).
  destruct (declared_argument_takes_its_values
              {[ "size" := ["width"; "height"] ]} [] "--size"
              ["width"; "height"] ["640"; "480"; "a.qml"]
              eq_refl Hdeclared Hplain) as (Hv & Hu & _).
  split; [reflexivity|]. split; [exact Hdeclared|]. split; [exact Hplain|].
  split; [exact Hv|]. rewrite Hu. vm_compute. reflexivity.
Defined.

(** ** The table of expected arguments *)

Lemma fold_insert_other (declared : list UCArgument.t) (h : QHash)
      (key : string) :
  Forall (fun a => UCArgument.name a ≠ key) declared →
  fold_left
    (fun expectedArguments argument =>
       <[UCArgument.name argument := UCArgument.valueNames argument]>
         expectedArguments)
    declared h !! key
  = h !! key.
Proof.
  intros Hother. revert h.
  induction Hother as [|a declared Ha _ IH]; intros h; [reflexivity|].
  cbn [fold_left]. rewrite IH. apply lookup_insert_ne. exact Ha.
Qed.

(** In the table built from the declared arguments a name has the value
    names of the last argument declared with it, and a name that no
    declared argument has is absent. *)
Theorem buildExpectedArguments_lookup
        (earlier later : list UCArgument.t) (argument : UCArgument.t)
        (key : string) :
  (Forall (fun a => UCArgument.name a ≠ UCArgument.name argument) later →
   buildExpectedArguments (earlier ++ argument :: later)
   !! UCArgument.name argument
   = Some (UCArgument.valueNames argument))
  ∧ (Forall (fun a => UCArgument.name a ≠ key) earlier →
     buildExpectedArguments earlier !! key = None).
Proof.
  unfold buildExpectedArguments. split; intros Hother.
  - rewrite fold_left_app. cbn [fold_left].
    rewrite fold_insert_other by exact Hother. apply lookup_insert_eq.
  - rewrite fold_insert_other by exact Hother. apply lookup_empty.
Qed.

Lemma buildExpectedArguments_lookup_witness :
  Forall (fun a => UCArgument.name a ≠ UCArgument.name sizeArgument)
         [verboseArgument]
  ∧ buildExpectedArguments
      ([UCArgument.make "size" ["side"]] ++ sizeArgument :: [verboseArgument])
    !! "size"
    = Some ["width"; "height"].
Proof.
  assert (H : Forall (fun a => UCArgument.name a
                               ≠ UCArgument.name sizeArgument)
                     [verboseArgument])
    by (repeat constructor; discriminate).
  split; [exact H|].
  exact (proj1 (buildExpectedArguments_lookup
                  [UCArgument.make "size" ["side"]] [verboseArgument]
                  sizeArgument "") H).
Defined.

(** ** The last token with a leading dash *)

(** When the command line ends with a token that starts with a dash, the
    result is what the tokens before it leave, with the argument pending at
    that point inserted: the final token itself contributes nothing, while a
    token with a leading dash right before it is stored under its name with
    the values it carries after [=], replacing whatever was stored under
    that name. *)
Theorem parseRawArguments_final_named_token
        (expected : QHash) (binary : string) (tokens : list string)
        (named last : string) :
  startsWith dash last = true →
  parseRawArguments (binary :: tokens ++ [last]) expected
  = Some (insertParsed (parseLoop expected tokens))
  ∧ (startsWith dash named = true →
     isEmpty (argumentName named) = false →
     ∃ table,
       parseRawArguments (binary :: tokens ++ [named] ++ [last]) expected
       = Some table
       ∧ table !! argumentName named = Some (initialValues named)).
Proof.
  intros Hlast. split.
  - exact (parseRawArguments_last_named_left_out expected binary tokens last
             Hlast).
  - intros Hnamed Hnonempty.
    exact (parseRawArguments_inserted_replaces expected binary tokens named
             last Hnamed Hlast Hnonempty).
Qed.

Lemma parseRawArguments_final_named_token_witness :
  startsWith dash "--z" = true
  ∧ startsWith dash "--a=2" = true
  ∧ isEmpty (argumentName "--a=2") = false
  ∧ ∃ table,
      parseRawArguments ("app" :: ["--a=1"] ++ ["--a=2"] ++ ["--z"]) ∅
      = Some table
      ∧ table !! argumentName "--a=2" = Some (initialValues "--a=2").
Proof.
  split; [reflexivity|]. split; [reflexivity|]. split; [reflexivity|].
  exact (proj2 (parseRawArguments_final_named_token
                  ∅ "app" ["--a=1"] "--a=2" "--z" eq_refl)
               eq_refl eq_refl).
Defined.

(** ** UCArguments *)


(** Appending an argument to an object whose raw arguments hold at least
    the binary name succeeds: there is one argument more, it is found at the
    old count, the arguments before it stay at their indices, the index one
    past it is out of range, the raw arguments are untouched, and the
    expected arguments and the values have been rebuilt from all declared
    arguments. *)
Theorem appendArguments_declares
        (argument : UCArgument.t) (s : UCArguments)
        (binary : string) (tokens : list string) :
  m_rawArguments s = binary :: tokens →
  ∃ s',
    appendArguments argument s = Some s'
    ∧ countArguments s' = (countArguments s + 1)%Z
    ∧ atArguments (countArguments s) s' = Some argument
    ∧ (∀ index a, atArguments index s = Some a →
                  atArguments index s' = Some a)
    ∧ atArguments (countArguments s') s' = None
    ∧ m_rawArguments s' = m_rawArguments s
    ∧ inSync s'.
Proof.
  intros Hraw. unfold appendArguments. rewrite Hraw.
  cbn [parseRawArguments]. eexists. split; [reflexivity|].
  unfold countArguments, atArguments.
  cbn [m_arguments m_rawArguments].
  rewrite !length_app. cbn [length]. repeat split.
  - lia.
  - replace ((0 <=? Z.of_nat (length (m_arguments s)))%Z
             && (Z.of_nat (length (m_arguments s))
                 <? Z.of_nat (length (m_arguments s) + 1))%Z)
      with true
      by (symmetry; apply andb_true_iff; split;
          [apply Z.leb_le|apply Z.ltb_lt]; lia).
    rewrite Nat2Z.id. rewrite lookup_app_r by lia.
    rewrite Nat.sub_diag. reflexivity.
  - intros index a.
    destruct ((0 <=? index)%Z
              && (index <? Z.of_nat (length (m_arguments s)))%Z) eqn:Hin;
      [|discriminate].
    apply andb_true_iff in Hin as [H0 Hlt].
    apply Z.leb_le in H0. apply Z.ltb_lt in Hlt. intros Hat.
    replace ((0 <=? index)%Z
             && (index <? Z.of_nat (length (m_arguments s) + 1))%Z)
      with true
      by (symmetry; apply andb_true_iff; split;
          [apply Z.leb_le|apply Z.ltb_lt]; lia).
    rewrite lookup_app_l by lia. exact Hat.
  - replace (Z.of_nat (length (m_arguments s) + 1)
             <? Z.of_nat (length (m_arguments s) + 1))%Z
      with false by (symmetry; apply Z.ltb_ge; lia).
    rewrite andb_false_r. reflexivity.
Qed.

Lemma appendArguments_declares_witness :
  m_rawArguments (newUCArguments ["app"; "--size"; "640"; "480"])
  = "app" :: ["--size"; "640"; "480"]
  ∧ ∃ s',
      appendArguments sizeArgument
        (newUCArguments ["app"; "--size"; "640"; "480"]) = Some s'
      ∧ countArguments s' = 1%Z
      ∧ atArguments 0 s' = Some sizeArgument.
Proof.
  split; [reflexivity|].
  destruct (appendArguments_declares
              sizeArgument (newUCArguments ["app"; "--size"; "640"; "480"])
              "app" ["--size"; "640"; "480"] eq_refl)
    as (s' & Happ & Hcount & Hat & _).
  exists s'. split; [exact Happ|]. split; [exact Hcount|exact Hat].
Defined.

(** Clearing forgets every declaration: whatever was appended before, the
    object is as if the arguments had been cleared without it, with no
    declared and no expected arguments and values parsed against nothing. *)
Theorem clearArguments_after_append
        (argument : UCArgument.t) (s s' : UCArguments) :
  appendArguments argument s = Some s' →
  clearArguments s' = clearArguments s
  ∧ ∃ cleared,
      clearArguments s' = Some cleared
      ∧ countArguments cleared = 0%Z
      ∧ m_expectedArguments cleared = ∅
      ∧ inSync cleared.
Proof.
  unfold appendArguments, clearArguments.
  destruct (m_rawArguments s) as [|binary tokens] eqn:Hraw;
    [discriminate|].
  cbn [parseRawArguments]. intros [= <-].
  cbn [m_rawArguments m_defaultArgument emitted parseRawArguments].
  split; [reflexivity|].
  eexists. split; [reflexivity|]. repeat split.
Qed.

Lemma clearArguments_after_append_witness :
  ∃ s' cleared,
    appendArguments sizeArgument
      (newUCArguments ["app"; "--size"; "640"; "480"]) = Some s'
    ∧ clearArguments s' = Some cleared
    ∧ countArguments cleared = 0%Z.
Proof.
  assert (Happ : ∃ s', appendArguments sizeArgument
                          (newUCArguments ["app"; "--size"; "640"; "480"])
                        = Some s')
    by (eexists; reflexivity).
  destruct Happ as [s' Happ].
  destruct (clearArguments_after_append
              sizeArgument (newUCArguments ["app"; "--size"; "640"; "480"])
              s' Happ) as (_ & cleared & Hclear & Hcount & _).
  exists s', cleared. split; [exact Happ|]. split; [exact Hclear|exact Hcount].
Defined.



End ArgumentParserFurther.

(** * Further properties of the theme broadcast *)

Section ThemeBroadcastFurther.

Import ItemExtension.

Lemma receivers_ascendant (item : QQuickItem) (ascendantStyled : option nat)
      (app : QGuiApplication) :
  receivers (broadcastAscendantUpdate item ascendantStyled app)
  = (receivers app ++ map address (descendants item))%list.
Proof.
  rewrite broadcastAscendantUpdate_delivers. unfold receivers.
  cbn [delivered]. rewrite map_app, List.map_map. reflexivity.
Qed.

Lemma receivers_theme (item : QQuickItem) (theme : option nat)
      (app : QGuiApplication) :
  receivers (broadcastThemeUpdate item theme app)
  = (receivers app ++ map address (themeTargets item))%list.
Proof.
  rewrite broadcastThemeUpdate_delivers. unfold receivers.
  cbn [delivered]. rewrite map_app, List.map_map. reflexivity.
Qed.

Lemma sublist_map {A B : Type} (f : A → B) (l k : list A) :
  l `sublist_of` k → map f l `sublist_of` map f k.
Proof.
  induction 1; cbn [map]; [constructor|constructor; assumption|].
  apply sublist_cons. assumption.
Qed.

Lemma themeTargets_sublist (item : QQuickItem) :
  themeTargets item `sublist_of` descendants item.
Proof.
  induction item as [a s children IH] using QQuickItem_ind.
  cbn [themeTargets descendants].
  induction IH as [|c children Hc _ IHchildren]; [constructor|].
  cbn [flat_map]. apply sublist_app; [|exact IHchildren].
  apply sublist_skip.
  destruct (styledItemBase c); [apply sublist_nil_l|exact Hc].
Qed.

(** The items a theme broadcast sends to are among those an ascendant
    broadcast from the same item sends to, in the same order. *)
Theorem theme_receivers_among_ascendant_receivers
        (item : QQuickItem) (theme ascendantStyled : option nat)
        (app : QGuiApplication) :
  receivers (broadcastThemeUpdate item theme app)
  `sublist_of` receivers (broadcastAscendantUpdate item ascendantStyled app).
Proof.
  rewrite receivers_theme, receivers_ascendant.
  apply sublist_app; [reflexivity|].
  apply sublist_map, themeTargets_sublist.
Qed.

Lemma themeTargets_unstyled (item : QQuickItem) :
  Forall (fun d => styledItemBase d = false) (descendants item) →
  themeTargets item = descendants item.
Proof.
  induction item as [a s children IH] using QQuickItem_ind.
  cbn [themeTargets descendants]. intros Hplain.
  induction IH as [|c children Hc _ IHchildren]; [reflexivity|].
  cbn [flat_map] in *.
  inversion Hplain as [|? ? Hstyled Hrest]; subst.
  apply Forall_app in Hrest as [Hbelow Hothers].
  rewrite Hstyled, (Hc Hbelow), (IHchildren Hothers). reflexivity.
Qed.

(** When no item below the starting item is a styled item, a theme
    broadcast sends to the same items in the same order as an ascendant
    broadcast: to every item below the starting item. *)
Theorem theme_broadcast_without_styled_items
        (item : QQuickItem) (theme ascendantStyled : option nat)
        (app : QGuiApplication) :
  Forall (fun d => styledItemBase d = false) (descendants item) →
  receivers (broadcastThemeUpdate item theme app)
  = receivers (broadcastAscendantUpdate item ascendantStyled app).
Proof.
  intros Hplain. rewrite receivers_theme, receivers_ascendant.
  rewrite (themeTargets_unstyled item Hplain). reflexivity.
Qed.

Lemma theme_broadcast_without_styled_items_witness :
  Forall (fun d => styledItemBase d = false) (descendants sampleRow)
  ∧ receivers (broadcastThemeUpdate sampleRow None idle)
    = receivers (broadcastAscendantUpdate sampleRow None idle).
Proof.
  assert (H : Forall (fun d => styledItemBase d = false)
                     (descendants sampleRow))
    by (repeat constructor).
  split; [exact H|].
  exact (theme_broadcast_without_styled_items sampleRow None None idle H).
Defined.

Lemma descendants_segment (item c : QQuickItem) :
  descendant item c →
  ∃ before after,
    descendants item = (before ++ c :: descendants c ++ after)%list.
Proof.
  induction 1 as [[a s children] c Hin|[a s children] ch c Hin _ IH];
    cbn [childItems descendants] in *;
    apply in_split in Hin as (left & right & ->);
    rewrite flat_map_app; cbn [flat_map].
  - exists (flat_map (fun c => c :: descendants c) left),
           (flat_map (fun c => c :: descendants c) right).
    reflexivity.
  - destruct IH as (before & after & ->).
    exists (flat_map (fun c => c :: descendants c) left ++ ch :: before)%list,
           (after ++ flat_map (fun c => c :: descendants c) right)%list.
    repeat first [rewrite <- app_assoc | progress cbn [app]]. reflexivity.
Qed.

(** Within an ascendant broadcast, the event for an item is directly
    followed by the events for everything below that item, in the order in
    which a broadcast started at that item would send them. *)
Theorem broadcast_below_descendant_is_contiguous
        (item c : QQuickItem) (ascendantStyled : option nat)
        (app : QGuiApplication) :
  descendant item c →
  ∃ before after,
    receivers (broadcastAscendantUpdate item ascendantStyled app)
    = (receivers app ++ before
       ++ address c
          :: receivers (broadcastAscendantUpdate c ascendantStyled idle)
       ++ after)%list.
Proof.
  intros Hc. destruct (descendants_segment item c Hc) as (before & after & H).
  exists (map address before), (map address after).
  rewrite !receivers_ascendant, H.
  change (receivers idle) with (@nil nat).
  rewrite map_app. cbn [map]. rewrite map_app. reflexivity.
Qed.

Lemma broadcast_below_descendant_is_contiguous_witness :
  descendant samplePage sampleButton
  ∧ ∃ before after,
      receivers (broadcastAscendantUpdate samplePage None idle)
      = (receivers idle ++ before
         ++ address sampleButton
            :: receivers (broadcastAscendantUpdate sampleButton None idle)
         ++ after)%list.
Proof.
  assert (H : descendant samplePage sampleButton)
    by (apply descendant_child; cbn; auto).
  split; [exact H|].
  exact (broadcast_below_descendant_is_contiguous
           samplePage sampleButton None idle H).
Defined.

End ThemeBroadcastFurther.

(** * The usage report *)

Section UsageReport.

Import Arguments.

(** ** C strings *)

Lemma cString_free (s : string) : freeOf Ascii.zero s → cString s = s.
Proof.
  induction s as [|c s IH]; [reflexivity|]. intros Hfree.
  apply freeOf_String in Hfree as [Hc Hfree].
  cbn [cString]. rewrite Hc, (IH Hfree). reflexivity.
Qed.

Lemma freeOf_append (sep : ascii) (s1 s2 : string) :
  freeOf sep s1 → freeOf sep s2 → freeOf sep (s1 ++ s2).
Proof.
  induction s1 as [|c s1 IH]; intros H1 H2; [exact H2|].
  apply freeOf_String in H1 as [Hc H1].
  change (String c s1 ++ s2)%string with (String c (s1 ++ s2)).
  apply freeOf_String. split; [exact Hc|exact (IH H1 H2)].
Qed.

Lemma usageText_free (applicationBinary : string) :
  freeOf Ascii.zero applicationBinary →
  freeOf Ascii.zero (usageText applicationBinary).
Proof.
  intros Hfree. unfold usageText.
  apply freeOf_append; [reflexivity|].
  apply freeOf_append; [exact Hfree|reflexivity].
Qed.

(** The text cut at the first NUL is a NUL-free beginning of the text. *)
Lemma cString_prefix (s : string) :
  freeOf Ascii.zero (cString s) ∧ ∃ rest, s = (cString s ++ rest)%string.
Proof.
  induction s as [|c s [IHfree [rest IHrest]]].
  - split; [reflexivity|exists EmptyString; reflexivity].
  - cbn [cString]. destruct (Ascii.eqb c Ascii.zero) eqn:Hc.
    + split; [reflexivity|exists (String c s); reflexivity].
    + split; [apply freeOf_String; split; assumption|].
      exists rest.
      change (String c (cString s) ++ rest)%string
        with (String c (cString s ++ rest)).
      rewrite <- IHrest. reflexivity.
Qed.

(** ** Sessions *)

Lemma call_writes_debug (c : Call) (r : Run) (binary : string)
      (tokens : list string) :
  m_rawArguments r.1 = binary :: tokens →
  Forall (fun w => isDebug w = true) r.2 →
  ∃ r', call c r = Some r'
        ∧ m_rawArguments r'.1 = binary :: tokens
        ∧ Forall (fun w => isDebug w = true) r'.2.
Proof.
  destruct r as [s written]. cbn [fst snd]. intros Hraw Hdebug.
  destruct c as [argument| |argument];
    unfold call, appended, cleared; cbn [fst snd].
  - unfold appendArguments. rewrite Hraw. cbn [parseRawArguments].
    eexists. split; [reflexivity|]. cbn [fst snd m_rawArguments].
    split; [reflexivity|].
    apply Forall_app. split; [exact Hdebug|repeat constructor].
  - unfold clearArguments. rewrite Hraw. cbn [parseRawArguments].
    eexists. split; [reflexivity|]. cbn [fst snd m_rawArguments].
    split; [reflexivity|].
    apply Forall_app. split; [exact Hdebug|repeat constructor].
  - eexists. split; [reflexivity|]. cbn [fst snd].
    split; [exact Hraw|exact Hdebug].
Qed.

Lemma session_writes_debug (cs : list Call) :
  ∀ (r : Run) (binary : string) (tokens : list string),
    m_rawArguments r.1 = binary :: tokens →
    Forall (fun w => isDebug w = true) r.2 →
    ∃ r', session cs r = Some r'
          ∧ m_rawArguments r'.1 = binary :: tokens
          ∧ Forall (fun w => isDebug w = true) r'.2.
Proof.
  induction cs as [|c cs IH]; intros r binary tokens Hraw Hdebug.
  - exists r. auto.
  - cbn [session].
    destruct (call_writes_debug c r binary tokens Hraw Hdebug)
      as (r1 & Hcall & Hraw1 & Hdebug1).
    rewrite Hcall. exact (IH r1 binary tokens Hraw1 Hdebug1).
Qed.

(** ** C8 *)

(** C8, as stated, fails: on the command line [app --size 640 --x] with
    [size] declared to take a width and a height, the object ends up with
    the single value 640 for [size], and all that has been written is the
    two debug lines: no usage message, no error message, no exit. *)
Lemma missing_values_not_reported :
  session [CallAppendArguments sizeArgument]
          (constructed ["app"; "--size"; "640"; "--x"])
  = Some (mkArguments ["app"; "--size"; "640"; "--x"] None [sizeArgument]
                      {[ "size" := ["width"; "height"] ]}
                      {[ "size" := ["640"] ]} [],
          [DebugRawArguments ["app"; "--size"; "640"; "--x"];
           DebugParsing {[ "size" := ["640"] ]}])
  ∧ missingValues
      (mkArguments ["app"; "--size"; "640"; "--x"] None [sizeArgument]
                   {[ "size" := ["width"; "height"] ]}
                   {[ "size" := ["640"] ]} [])
  ∧ ¬ (∃ output,
         In (Reported output)
            [DebugRawArguments ["app"; "--size"; "640"; "--x"];
             DebugParsing {[ "size" := ["640"] ]}]).
Proof.
  split; [vm_compute; reflexivity|]. split.
  - exists sizeArgument, ["640"]. split; [left; reflexivity|].
    split; [vm_compute; reflexivity|cbn; lia].
  - intros (output & [H|[H|[]]]); discriminate H.
Qed.

(** C8 (amended): after the constructor and any sequence of
    [appendArguments], [clearArguments] and [setDefaultArgument] calls on a
    command line with a binary name, only debug lines have been written: no
    warning and no exit, whatever the arguments.  A call of
    [quitAndPrintUsage] then leaves the object as it is, writes the error
    message and the usage text, "Usage: " with the binary name and a line
    "Options:", each cut at its first NUL (so in full when it has none),
    and last calls [QCoreApplication::exit] with -1. *)
Theorem quitAndPrintUsage_reports
        (applicationBinary : string) (arguments : list string)
        (cs : list Call) (errorMessage : string) :
  ∃ r,
    session cs (constructed (applicationBinary :: arguments)) = Some r
    ∧ Forall (fun w => isDebug w = true) r.2
    ∧ quitAndPrintUsageCalled errorMessage r
      = Some (r.1,
              (r.2 ++ [Reported (Warning (cString errorMessage));
                       Reported
                         (Warning (cString (usageText applicationBinary)));
                       Reported (Exit (-1))])%list)
    ∧ (freeOf Ascii.zero errorMessage → cString errorMessage = errorMessage)
    ∧ (freeOf Ascii.zero applicationBinary →
       cString (usageText applicationBinary) = usageText applicationBinary)
    ∧ (∃ rest, errorMessage = (cString errorMessage ++ rest)%string).
Proof.
  destruct (session_writes_debug
              cs (constructed (applicationBinary :: arguments))
              applicationBinary arguments eq_refl)
    as (r & Hsession & Hraw & Hdebug); [repeat constructor|].
  exists r. split; [exact Hsession|]. split; [exact Hdebug|].
  split; [|split; [|split]].
  - unfold quitAndPrintUsageCalled. rewrite Hraw.
    cbn [quitAndPrintUsage map]. unfold usageText.
    rewrite !append_assoc. reflexivity.
  - apply cString_free.
  - intros Hfree. apply cString_free, usageText_free. exact Hfree.
  - apply cString_prefix.
Qed.

Lemma quitAndPrintUsage_reports_witness :
  freeOf Ascii.zero "size needs two values"
  ∧ freeOf Ascii.zero "app"
  ∧ ∃ r,
      session [CallAppendArguments sizeArgument]
              (constructed ("app" :: ["--size"; "640"; "--x"])) = Some r
      ∧ quitAndPrintUsageCalled "size needs two values" r
        = Some (r.1,
                (r.2 ++ [Reported (Warning "size needs two values");
                         Reported (Warning (usageText "app"));
                         Reported (Exit (-1))])%list).
Proof.
  assert (Hmessage : freeOf Ascii.zero "size needs two values")
    by reflexivity.
  assert (Hbinary : freeOf Ascii.zero "app") by reflexivity.
  destruct (quitAndPrintUsage_reports
              "app" ["--size"; "640"; "--x"]
              [CallAppendArguments sizeArgument] "size needs two values")
    as (r & Hsession & _ & Hcalled & Hm & Hu & _).
  split; [exact Hmessage|]. split; [exact Hbinary|].
  exists r. split; [exact Hsession|].
  rewrite Hcalled, (Hm Hmessage), (Hu Hbinary). reflexivity.
Defined.

End UsageReport.
